(** * Node support of a master tree against resampled trees

    A shallow embedding of [qiime/tree_compare.py]: [setup_master_tree],
    [compare] and [bootstrap_support], over a model of the PyCogent tree
    interface ([PhyloNode]) the three functions are written against.

    Python objects are mutated in place; here every function takes the
    master tree and returns the master tree as the call leaves it, together
    with the outcome of the call (a value or a raised exception).  A tree
    that is returned next to [Raise e] is the state the caller observes when
    it catches [e]. *)

From Stdlib Require Import ZArith QArith String Ascii List.
From stdpp Require Import base decidable option list gmap strings pretty.

Local Open Scope Z_scope.

(** ** Python values and exceptions *)

(** The exceptions the module can raise.  [ValueError] carries its message,
    [AttributeError] the attribute that was read on an object without it. *)
Inductive exn : Type :=
| ValueError (msg : string)
| ZeroDivisionError
| AttributeError (attr : string).

Inductive result (A : Type) : Type :=
| Ok (a : A)
| Raise (e : exn).
Arguments Ok {A} a.
Arguments Raise {A} e.

(** The numbers stored in the [bootstrap_support] attribute: an [int] while
    trees are compared, a [float] after the final division.  The module
    imports [division] from [__future__], so [/] is true division; its
    result is kept as the exact quotient in lowest terms. *)
Inductive pynum : Type :=
| PyInt (z : Z)
| PyFloat (q : Q).

Definition pynum_to_Q (v : pynum) : Q :=
  match v with
  | PyInt z => inject_Z z
  | PyFloat q => q
  end.

(** [v + 1] *)
Definition py_add1 (v : pynum) : pynum :=
  match v with
  | PyInt z => PyInt (z + 1)
  | PyFloat q => PyFloat (Qred (q + 1))
  end.

(** [v / n] for an [int] [n] *)
Definition py_truediv (v : pynum) (n : Z) : result pynum :=
  if bool_decide (n = 0) then Raise ZeroDivisionError
  else Ok (PyFloat (Qred (pynum_to_Q v / inject_Z n))).

(** ** The tree interface *)

(** Modelled from the spec: the class [cogent.core.tree.PhyloNode] is
    imported by the module and is not part of it.  A node holds an optional
    label ([Name], [None] when the parser found none), the ordered sequence
    of the children it owns, and a slot for the attribute
    [bootstrap_support] that the module bolts onto internal nodes ([None]
    while the object has no such attribute).  The field is called
    [bootstrap_support_attr] because [bootstrap_support] is also the name of
    the module's main function. *)
#[local] Unset Elimination Schemes.
Inductive PhyloNode : Type := mkNode {
  Name : option string;
  bootstrap_support_attr : option pynum;
  Children : list PhyloNode
}.
#[local] Set Elimination Schemes.

Section PhyloNode_ind.
Variable P : PhyloNode → Prop.
Hypothesis P_node : ∀ nm bs cs, Forall P cs → P (mkNode nm bs cs).

Fixpoint PhyloNode_ind (t : PhyloNode) : P t :=
    match t with
    | mkNode nm bs cs =>
        P_node nm bs cs
          ((fix children_ind (l : list PhyloNode) : Forall P l :=
              match l with
              | [] => @List.Forall_nil _ P
              | c :: l' => @List.Forall_cons _ P c l' (PhyloNode_ind c) (children_ind l')
              end) cs)
    end.
End PhyloNode_ind.

(** A node is a tip iff it has no children. *)
Definition is_tip (t : PhyloNode) : bool :=
  match Children t with
  | [] => true
  | _ :: _ => false
  end.

(** Modelled from the spec: [traverse()], the depth-first walk of the tree
    interface, every node before its children and the children from left to
    right. *)
Fixpoint preorder (t : PhyloNode) : list PhyloNode :=
  match t with
  | mkNode _ _ cs => t :: flat_map preorder cs
  end.

(** Modelled from the spec: [iterNontips(include_self=True)], the internal
    nodes in traversal order, the root included when it is internal. *)
Definition iterNontips (t : PhyloNode) : list PhyloNode :=
  filter (λ n, is_tip n = false) (preorder t).

(** Modelled from the spec: the leaves below a node, from left to right; a
    leaf is the only leaf of its own subtree. *)
Fixpoint tips (t : PhyloNode) : list PhyloNode :=
  match t with
  | mkNode _ _ [] => [t]
  | mkNode _ _ cs => flat_map tips cs
  end.

(** Modelled from the spec: [getTipNames()], the labels of the leaves
    below a node. *)
Definition getTipNames (t : PhyloNode) : list (option string) :=
  Name <$> tips t.

(** Modelled from the spec: [getNodeNames()], the labels of all nodes,
    leaves and internal nodes alike. *)
Definition getNodeNames (t : PhyloNode) : list (option string) :=
  Name <$> preorder t.

(** Python's [set(names)] *)
Definition pyset (l : list (option string)) : gset (option string) :=
  list_to_set l.

(** The clade of a node: the set of leaf labels below it. *)
Definition clade (t : PhyloNode) : gset (option string) :=
  pyset (getTipNames t).

(** ** Loops over the internal nodes *)

(** [for node in master.iterNontips(include_self=True): body] where the
    body reads [node], assigns to its [Name] and [bootstrap_support]
    attributes and updates the local variables [S] of the enclosing
    function.  The body returns the two attributes as it leaves them and
    the new locals.  An exception ends the loop: the nodes visited before
    keep what was assigned to them, the others are not reached. *)
Section Loop.
Context {S : Type}.
Variable body :
    PhyloNode → S → result (option string * option pynum * S).

Section Thread.
Variable visit : PhyloNode → result S → PhyloNode * result S.

Fixpoint thread (cs : list PhyloNode) (st : result S)
      : list PhyloNode * result S :=
      match cs with
      | [] => ([], st)
      | c :: cs' =>
          let '(c', st1) := visit c st in
          let '(cs'', st2) := thread cs' st1 in
          (c' :: cs'', st2)
      end.
End Thread.

Fixpoint for_nontips (t : PhyloNode) (st : result S)
    : PhyloNode * result S :=
    match st with
    | Raise e => (t, Raise e)
    | Ok s =>
        match t with
        | mkNode _ _ [] => (t, Ok s)
        | mkNode _ _ cs =>
            match body t s with
            | Raise e => (t, Raise e)
            | Ok (nm', bs', s') =>
                let '(cs', st') := thread for_nontips cs (Ok s') in
                (mkNode nm' bs' cs', st')
            end
        end
    end.
End Loop.

(** ** setup_master_tree *)

Definition nonunique_msg : string :=
  "can't setup tree, nonunique node names".

(** [getattr(node, 'Name', None) == None or getattr(node, 'Name', None) == ""] *)
Definition unnamed (nm : option string) : bool :=
  bool_decide (nm = None) || bool_decide (nm = Some ""%string).

(** The body of the loop of [setup_master_tree]; the local is the counter
    [i]. *)
Definition setup_body (node : PhyloNode) (i : nat)
  : result (option string * option pynum * nat) :=
  if unnamed (Name node)
  then Ok (Some ("node" +:+ pretty i), Some (PyInt 0), Datatypes.S i)
  else Ok (Name node, Some (PyInt 0), i).

Definition setup_master_tree (master : PhyloNode)
  : PhyloNode * result unit :=
  let '(master', st) := for_nontips setup_body master (Ok 0%nat) in
  match st with
  | Raise e => (master', Raise e)
  | Ok _ =>
      if bool_decide (size (pyset (getNodeNames master'))
                      ≠ length (getNodeNames master'))
      then (master', Raise (ValueError nonunique_msg))
      else (master', Ok ())
  end.

(** ** compare *)

Definition mismatch_msg : string :=
  "different number of tips in subsampled_tree and master."
  +:+ String "010" "typically some sapmples with few sequences were skipped in"
  +:+ " the support trees.  remove offending samples from the master"
  +:+ " tree, and try again".

(** The body of the loop of [compare]; [names] is
    [subsampled_tree_nodes_names].  The loop has no locals of its own. *)
Definition compare_body (names : list (list (option string)))
    (master_node : PhyloNode) (_ : unit)
  : result (option string * option pynum * unit) :=
  if bool_decide (pyset (getTipNames master_node) ∈ pyset <$> names)
  then
    match bootstrap_support_attr master_node with
    | None => Raise (AttributeError "bootstrap_support")
    | Some v => Ok (Name master_node, Some (py_add1 v), ())
    end
  else Ok (Name master_node, bootstrap_support_attr master_node, ()).

Definition compare (master subsampled_tree : PhyloNode)
  : PhyloNode * result unit :=
  if bool_decide (pyset (getTipNames master)
                  ≠ pyset (getTipNames subsampled_tree))
  then (master, Raise (ValueError mismatch_msg))
  else
    let subsampled_tree_nodes_names :=
      getTipNames <$> iterNontips subsampled_tree in
    for_nontips (compare_body subsampled_tree_nodes_names) master (Ok ()).

(** ** bootstrap_support *)

(** [for sub_tree in trees: compare(master_tree, sub_tree)] *)
Fixpoint compare_all (master : PhyloNode) (trees : list PhyloNode)
  : PhyloNode * result unit :=
  match trees with
  | [] => (master, Ok ())
  | sub_tree :: trees' =>
      match compare master sub_tree with
      | (master', Ok _) => compare_all master' trees'
      | (master', Raise e) => (master', Raise e)
      end
  end.

(** The body of the last loop of [bootstrap_support]; the local is the
    dictionary [bootstrap_supports]. *)
Definition aggregate_body (num_trees : Z)
    (node : PhyloNode) (bootstrap_supports : gmap (option string) pynum)
  : result (option string * option pynum * gmap (option string) pynum) :=
  match bootstrap_support_attr node with
  | None => Raise (AttributeError "bootstrap_support")
  | Some v =>
      match py_truediv v num_trees with
      | Raise e => Raise e
      | Ok q => Ok (Name node, Some q, <[Name node := q]> bootstrap_supports)
      end
  end.

Definition bootstrap_support (master_tree : PhyloNode)
    (trees : list PhyloNode)
  : PhyloNode * result (gmap (option string) pynum) :=
  match setup_master_tree master_tree with
  | (m1, Raise e) => (m1, Raise e)
  | (m1, Ok _) =>
      match compare_all m1 trees with
      | (m2, Raise e) => (m2, Raise e)
      | (m2, Ok _) =>
          let num_trees := Z.of_nat (length trees) in
          for_nontips (aggregate_body num_trees) m2 (Ok ∅)
      end
  end.

(** ** The trees of the concrete scenarios *)

Definition leaf (s : string) : PhyloNode := mkNode (Some s) None [].
Definition inner (nm : option string) (cs : list PhyloNode) : PhyloNode :=
  mkNode nm None cs.

(** [((A,B)n1,(C,D)n2);] *)
Definition master_ABCD : PhyloNode :=
  inner None [inner (Some "n1"%string) [leaf "A"; leaf "B"];
              inner (Some "n2"%string) [leaf "C"; leaf "D"]].
(** [((A,B),(C,D));] *)
Definition tree_AB_CD : PhyloNode :=
  inner None [inner None [leaf "A"; leaf "B"];
              inner None [leaf "C"; leaf "D"]].
(** [((A,C),(B,D));] *)
Definition tree_AC_BD : PhyloNode :=
  inner None [inner None [leaf "A"; leaf "C"];
              inner None [leaf "B"; leaf "D"]].

(** ** What a loop over the internal nodes does, node by node *)

(** All that the three loop bodies read of a node: its label, its
    accumulator and the labels of the leaves below it. *)
Definition view : Type :=
  option string * option pynum * list (option string).

Definition view_of (n : PhyloNode) : view :=
  (Name n, bootstrap_support_attr n, getTipNames n).

Definition views (t : PhyloNode) : list view :=
  view_of <$> iterNontips t.

(** The loop of [for_nontips], run over the list of views. *)
Section VLoop.
Context {S : Type}.
Variable vbody : view → S → result (option string * option pynum * S).

Fixpoint vloop (vs : list view) (st : result S) : list view * result S :=
    match vs with
    | [] => ([], st)
    | v :: vs' =>
        match st with
        | Raise e => (v :: vs', Raise e)
        | Ok s =>
            match vbody v s with
            | Raise e => (v :: vs', Raise e)
            | Ok (nm, bs, s') =>
                let '(l, st') := vloop vs' (Ok s') in
                ((nm, bs, v.2) :: l, st')
            end
        end
    end.
End VLoop.

(** What one run of the loop over the tree [t] leaves behind, when the
    body [body] reads of a node what [vbody] reads of its view. *)
Definition loop_ok {S : Type}
    (body : PhyloNode → S → result (option string * option pynum * S))
    (vbody : view → S → result (option string * option pynum * S))
    (t : PhyloNode) : Prop :=
  ∀ st,
    views (for_nontips body t st).1 = (vloop vbody (views t) st).1
    ∧ (for_nontips body t st).2 = (vloop vbody (views t) st).2
    ∧ tips (for_nontips body t st).1 = tips t.

Definition setup_vbody (v : view) (i : nat)
  : result (option string * option pynum * nat) :=
  if unnamed v.1.1
  then Ok (Some ("node" +:+ pretty i), Some (PyInt 0), Datatypes.S i)
  else Ok (v.1.1, Some (PyInt 0), i).

(** The labels as the spec words them: a counter that starts at [i], is
    used for every missing or empty label and is incremented after each
    use; other labels stay. *)
Fixpoint assign_names (i : nat) (names : list (option string))
  : list (option string) :=
  match names with
  | [] => []
  | nm :: names' =>
      if unnamed nm
      then Some ("node" +:+ pretty i) :: assign_names (Datatypes.S i) names'
      else nm :: assign_names i names'
  end.

(** How many labels were handed out before the node at position [j]. *)
Definition assigned_before (j : nat) (names : list (option string)) : nat :=
  length (filter (λ nm, unnamed nm = true) (take j names)).

Definition setup_view (i : nat) (v : view) : view :=
  (if unnamed v.1.1 then Some ("node" +:+ pretty i) else v.1.1,
   Some (PyInt 0), v.2).

Fixpoint setup_views (i : nat) (vs : list view) : list view :=
  match vs with
  | [] => []
  | v :: vs' =>
      setup_view i v
      :: setup_views (if unnamed v.1.1 then Datatypes.S i else i) vs'
  end.

(** The master tree as the loop of [setup_master_tree] leaves it, before
    the labels are checked. *)
Definition named (master : PhyloNode) : PhyloNode :=
  (for_nontips setup_body master (Ok 0%nat)).1.

(** [subsampled_tree_nodes_names] of a comparison tree *)
Definition nodes_names (t : PhyloNode) : list (list (option string)) :=
  getTipNames <$> iterNontips t.

(** The test of [compare]: is the set of [tn] among the sets of [names]? *)
Definition supports (names : list (list (option string)))
    (tn : list (option string)) : bool :=
  bool_decide (pyset tn ∈ pyset <$> names).

Definition compare_vbody (names : list (list (option string)))
    (v : view) (_ : unit)
  : result (option string * option pynum * unit) :=
  if supports names v.2
  then
    match v.1.2 with
    | None => Raise (AttributeError "bootstrap_support")
    | Some x => Ok (v.1.1, Some (py_add1 x), ())
    end
  else Ok (v.1.1, v.1.2, ()).

(** One comparison tree's vote on one master node. *)
Definition bump (names : list (list (option string))) (v : view) : view :=
  (v.1.1, if supports names v.2 then py_add1 <$> v.1.2 else v.1.2, v.2).

Definition has_acc (v : view) : Prop := is_Some v.1.2.

(** The votes of a list of comparison trees on one clade. *)
Definition votes (ts : list PhyloNode) (tn : list (option string)) : Z :=
  Z.of_nat (length (filter (λ t, supports (nodes_names t) tn = true) ts)).

(** A node whose accumulator holds an [int]. *)
Definition int_acc (v : view) : Prop := ∃ k, v.1.2 = Some (PyInt k).

(** An [int] accumulator after the trees [ts] have voted. *)
Definition add_votes (ts : list PhyloNode) (v : view) : view :=
  (v.1.1,
   match v.1.2 with
   | Some (PyInt k) => Some (PyInt (k + votes ts v.2))
   | other => other
   end,
   v.2).

Definition aggregate_vbody (num_trees : Z)
    (v : view) (bootstrap_supports : gmap (option string) pynum)
  : result (option string * option pynum * gmap (option string) pynum) :=
  match v.1.2 with
  | None => Raise (AttributeError "bootstrap_support")
  | Some x =>
      match py_truediv x num_trees with
      | Raise e => Raise e
      | Ok q => Ok (v.1.1, Some q, <[v.1.1 := q]> bootstrap_supports)
      end
  end.

Definition quotient (n : Z) (x : pynum) : pynum :=
  PyFloat (Qred (pynum_to_Q x / inject_Z n)).

Definition normalize (n : Z) (v : view) : view :=
  (v.1.1, quotient n <$> v.1.2, v.2).

(** [bootstrap_supports[node.Name] = node.bootstrap_support] *)
Definition record (n : Z) (d : gmap (option string) pynum) (v : view)
  : gmap (option string) pynum :=
  match v.1.2 with
  | Some x => <[v.1.1 := quotient n x]> d
  | None => d
  end.

(** The accumulators when all [ts] have been compared. *)
Definition counted (m : PhyloNode) (ts : list PhyloNode) : list view :=
  add_votes ts <$> views (named m).

(** A support fraction: a [float] in the closed interval from 0 to 1. *)
Definition unit_interval (x : pynum) : Prop :=
  ∃ q, x = PyFloat q ∧ (0 <= q)%Q ∧ (q <= 1)%Q.

Definition label (v : view) : option string := v.1.1.

Definition tree_AB_CE : PhyloNode :=
  inner None [inner None [leaf "A"; leaf "B"];
              inner None [leaf "C"; leaf "E"]].
Definition tree_AB_CF : PhyloNode :=
  inner None [inner None [leaf "A"; leaf "B"];
              inner None [leaf "C"; leaf "F"]].

(** [((B,A),(D,C));] *)
Definition tree_BA_DC : PhyloNode :=
  inner None [inner None [leaf "B"; leaf "A"];
              inner None [leaf "D"; leaf "C"]].

(** [(x);] and [x;] *)
Definition chain_x : PhyloNode := inner None [leaf "x"].
Definition tip_x : PhyloNode := leaf "x".

(** Two nodes of a tree, at different places of the traversal, with the
    same label. *)
Definition shares_label (t : PhyloNode) : Prop :=
  ∃ i j n1 n2,
    i ≠ j ∧ preorder t !! i = Some n1 ∧ preorder t !! j = Some n2
    ∧ Name n1 = Name n2.

(** What one comparison does to the accumulator of one master node: it is
    an [int] before and after, and it is one more when the comparison tree
    has the clade of the node and the same otherwise. *)
Definition one_vote (t : PhyloNode) (n n' : PhyloNode) : Prop :=
  ∃ k,
    bootstrap_support_attr n = Some (PyInt k)
    ∧ bootstrap_support_attr n'
      = Some (PyInt (if supports (nodes_names t) (getTipNames n)
                     then k + 1 else k))
    ∧ Name n' = Name n.

(** ** The shape of a tree *)

(** A tree without what the loops over the internal nodes can assign: the
    label and the accumulator of every internal node.  The leaves, the
    number of children of every node and their order stay. *)
Fixpoint skeleton (t : PhyloNode) : PhyloNode :=
  match t with
  | mkNode _ _ [] => t
  | mkNode _ _ cs => mkNode None None (map skeleton cs)
  end.

(** A tree [t] that is the master tree [m] after [setup_master_tree] up to
    its accumulators: the shape of [m], the labels [setup_master_tree]
    gives, the leaves of [m] below every internal node. *)
Definition framed (m t : PhyloNode) : Prop :=
  skeleton t = skeleton m
  ∧ label <$> views t = label <$> views (named m)
  ∧ snd <$> views t = snd <$> views m.

(** ** The loop over a list of views *)

Section VLoopFacts.
Context {S : Type}.
Variable vbody : view → S → result (option string * option pynum * S).

Lemma vloop_Raise vs e : vloop vbody vs (Raise e) = (vs, Raise e).
  Proof. by destruct vs. Qed.

Lemma vloop_app vs1 vs2 st :
    vloop vbody (vs1 ++ vs2) st =
      let '(l1, st1) := vloop vbody vs1 st in
      let '(l2, st2) := vloop vbody vs2 st1 in
      (l1 ++ l2, st2).
  Proof.
    revert st. induction vs1 as [|v vs1 IH]; intros st; simpl.
    - by destruct (vloop vbody vs2 st).
    - destruct st as [s|e]; [|by rewrite vloop_Raise].
      destruct (vbody v s) as [[[nm bs] s']|e]; [|by rewrite vloop_Raise].
      rewrite IH. destruct (vloop vbody vs1 (Ok s')) as [l1 st1].
      by destruct (vloop vbody vs2 st1).
  Qed.
End VLoopFacts.

(** ** The traversals, one node at a time *)

Lemma filter_flat_map {A B} (P : B → Prop) `{∀ x, Decision (P x)}
    (f : A → list B) (l : list A) :
  filter P (flat_map f l) = flat_map (λ x, filter P (f x)) l.
Proof.
  induction l as [|x l IH]; simpl; [done|].
  by rewrite filter_app, IH.
Qed.

Lemma iterNontips_tip nm bs : iterNontips (mkNode nm bs []) = [].
Proof. done. Qed.

Lemma iterNontips_inner nm bs c cs :
  iterNontips (mkNode nm bs (c :: cs)) =
    mkNode nm bs (c :: cs) :: flat_map iterNontips (c :: cs).
Proof.
  unfold iterNontips at 1. cbn [preorder].
  rewrite filter_cons_True by done.
  by rewrite filter_flat_map.
Qed.

Lemma views_tip nm bs : views (mkNode nm bs []) = [].
Proof. done. Qed.

Lemma fmap_flat_map {A B C} (g : B → C) (f : A → list B) (l : list A) :
  g <$> flat_map f l = flat_map (λ x, g <$> f x) l.
Proof.
  induction l as [|x l IH]; simpl; [done|].
  by rewrite fmap_app, IH.
Qed.

Lemma views_inner nm bs c cs :
  views (mkNode nm bs (c :: cs)) =
    (nm, bs, Name <$> flat_map tips (c :: cs)) :: flat_map views (c :: cs).
Proof.
  unfold views at 1. rewrite iterNontips_inner, fmap_cons.
  by rewrite fmap_flat_map.
Qed.

Lemma is_tip_views t : is_tip t = true → views t = [].
Proof. by destruct t as [nm bs [|c cs]]. Qed.

Lemma views_nil_is_tip t : views t = [] → is_tip t = true.
Proof.
  destruct t as [nm bs [|c cs]]; [done|]. by rewrite views_inner.
Qed.

(** ** A loop over the tree is the loop over its views *)

Section LoopFacts.
Context {S : Type}.
Variable body : PhyloNode → S → result (option string * option pynum * S).
Variable vbody : view → S → result (option string * option pynum * S).
Hypothesis body_view : ∀ n s, body n s = vbody (view_of n) s.

Lemma for_nontips_Raise t e : for_nontips body t (Raise e) = (t, Raise e).
  Proof. by destruct t. Qed.

Lemma thread_Raise cs e :
    thread (for_nontips body) cs (Raise e) = (cs, Raise e).
  Proof.
    induction cs as [|c cs IH]; simpl; [done|].
    by rewrite for_nontips_Raise, IH.
  Qed.

Lemma thread_views cs :
    Forall (loop_ok body vbody) cs →
    ∀ st,
      flat_map views (thread (for_nontips body) cs st).1
        = (vloop vbody (flat_map views cs) st).1
      ∧ (thread (for_nontips body) cs st).2
        = (vloop vbody (flat_map views cs) st).2
      ∧ flat_map tips (thread (for_nontips body) cs st).1 = flat_map tips cs
      ∧ length (thread (for_nontips body) cs st).1 = length cs.
  Proof.
    induction 1 as [|c cs Hc _ IH]; intros st; simpl; [done|].
    destruct (Hc st) as (Hv & Hs & Ht).
    destruct (for_nontips body c st) as [c' st1]; simpl in *.
    destruct (IH st1) as (IHv & IHs & IHt & IHl).
    destruct (thread (for_nontips body) cs st1) as [cs' st2]; simpl in *.
    rewrite vloop_app.
    destruct (vloop vbody (views c) st) as [l1 st1']; simpl in *.
    rewrite <- Hs.
    destruct (vloop vbody (flat_map views cs) st1) as [l2 st2']; simpl in *.
    by rewrite Hv, IHv, IHs, Ht, IHt, IHl.
  Qed.

Lemma for_nontips_views t : loop_ok body vbody t.
  Proof.
    induction t as [nm bs cs IH] using PhyloNode_ind. intros st.
    destruct st as [s|e]; [|by rewrite for_nontips_Raise, vloop_Raise].
    destruct cs as [|c cs]; [done|].
    rewrite views_inner. cbn [for_nontips vloop].
    rewrite body_view. unfold view_of. cbn [Name bootstrap_support_attr].
    change (getTipNames (mkNode nm bs (c :: cs)))
      with (Name <$> flat_map tips (c :: cs)).
    destruct (vbody _ s) as [[[nm' bs'] s']|e]; [|by cbn [fst snd]; rewrite views_inner].
    destruct (thread_views _ IH (Ok s')) as (Hv & Hs & Ht & Hl).
    destruct (thread (for_nontips body) (c :: cs) (Ok s')) as [cs' st'].
    destruct (vloop vbody (flat_map views (c :: cs)) (Ok s')) as [l st''].
    simpl in Hv, Hs, Ht, Hl. subst.
    destruct cs' as [|c' cs']; [done|].
    cbn [fst snd tips]. rewrite views_inner. by rewrite Ht.
  Qed.

Lemma for_nontips_getTipNames t st :
    getTipNames (for_nontips body t st).1 = getTipNames t.
  Proof.
    unfold getTipNames. by destruct (for_nontips_views t st) as (_ & _ & ->).
  Qed.

Lemma for_nontips_is_tip t st :
    is_tip (for_nontips body t st).1 = is_tip t.
  Proof.
    destruct st as [s|e]; [|by rewrite for_nontips_Raise].
    destruct t as [nm bs [|c cs]]; [done|].
    cbn [for_nontips]. destruct (body _ s) as [[[nm' bs'] s']|e]; [|done].
    pose proof (thread_views (c :: cs)
      (proj2 (Forall_forall _ _) (λ x _, for_nontips_views x)) (Ok s'))
      as (_ & _ & _ & Hl).
    destruct (thread (for_nontips body) (c :: cs) (Ok s')) as [[|c' cs'] st'];
      [done|done].
  Qed.
End LoopFacts.

(** ** setup_master_tree, node by node *)

Lemma setup_body_view n i : setup_body n i = setup_vbody (view_of n) i.
Proof. done. Qed.

Lemma setup_vbody_eq v i :
  setup_vbody v i
  = Ok ((setup_view i v).1.1, Some (PyInt 0),
        if unnamed v.1.1 then Datatypes.S i else i).
Proof. unfold setup_vbody, setup_view; simpl. by destruct (unnamed v.1.1). Qed.

Lemma vloop_setup vs i :
  (vloop setup_vbody vs (Ok i)).1 = setup_views i vs
  ∧ ∃ j, (vloop setup_vbody vs (Ok i)).2 = Ok j.
Proof.
  revert i. induction vs as [|v vs IH]; intros i; [simpl; eauto|].
  cbn [vloop setup_views]. rewrite setup_vbody_eq.
  destruct (IH (if unnamed v.1.1 then Datatypes.S i else i)) as [E [j Ej]].
  destruct (vloop setup_vbody vs _) as [l st]; simpl in *. subst.
  split; [done | eauto].
Qed.

Lemma setup_views_names i vs :
  (λ v : view, v.1.1) <$> setup_views i vs
  = assign_names i ((λ v : view, v.1.1) <$> vs).
Proof.
  revert i. induction vs as [|v vs IH]; intros i; simpl; [done|].
  rewrite IH. unfold setup_view; simpl. by destruct (unnamed v.1.1).
Qed.

Lemma setup_views_acc i vs :
  Forall (λ v : view, v.1.2 = Some (PyInt 0)) (setup_views i vs).
Proof.
  revert i. induction vs as [|v vs IH]; intros i; simpl; constructor; auto.
Qed.

Lemma setup_views_tipnames i vs :
  (λ v : view, v.2) <$> setup_views i vs = (λ v : view, v.2) <$> vs.
Proof.
  revert i. induction vs as [|v vs IH]; intros i; simpl; [done|].
  by rewrite IH.
Qed.

Lemma assign_names_lookup names : ∀ i j nm,
  names !! j = Some nm →
  assign_names i names !! j
  = Some (if unnamed nm
          then Some ("node" +:+ pretty (i + assigned_before j names)%nat)
          else nm).
Proof.
  induction names as [|nm0 names IH]; intros i j nm Hj; [done|].
  destruct j as [|j]; simpl in *.
  - injection Hj as ->. unfold assigned_before; simpl.
    rewrite Nat.add_0_r. by destruct (unnamed nm).
  - unfold assigned_before. rewrite firstn_cons.
    destruct (unnamed nm0) eqn:E0; simpl.
    + rewrite filter_cons_True by done. simpl.
      rewrite (IH _ _ _ Hj). unfold assigned_before.
      by rewrite Nat.add_succ_r.
    + rewrite filter_cons_False by (by rewrite E0).
      by rewrite (IH _ _ _ Hj).
Qed.

Lemma setup_master_tree_fst m : (setup_master_tree m).1 = named m.
Proof.
  unfold setup_master_tree, named.
  destruct (for_nontips setup_body m (Ok 0%nat)) as [m' [i|e]]; simpl;
    [by case_bool_decide | done].
Qed.

Lemma setup_master_tree_snd m :
  (setup_master_tree m).2 =
    if bool_decide (size (pyset (getNodeNames (named m)))
                    ≠ length (getNodeNames (named m)))
    then Raise (ValueError nonunique_msg) else Ok ().
Proof.
  unfold setup_master_tree, named.
  destruct (for_nontips_views _ _ setup_body_view m (Ok 0%nat)) as (_ & Hs & _).
  destruct (vloop_setup (views m) 0) as [_ [j Hj]].
  rewrite Hj in Hs.
  destruct (for_nontips setup_body m (Ok 0%nat)) as [m' st]; simpl in *.
  subst st. by case_bool_decide.
Qed.

Lemma views_named m : views (named m) = setup_views 0 (views m).
Proof.
  unfold named.
  destruct (for_nontips_views _ _ setup_body_view m (Ok 0%nat)) as (-> & _).
  apply vloop_setup.
Qed.

Lemma tips_named m : tips (named m) = tips m.
Proof.
  unfold named.
  by destruct (for_nontips_views _ _ setup_body_view m (Ok 0%nat)) as (_ & _ & ->).
Qed.

Lemma clade_named m : clade (named m) = clade m.
Proof. unfold clade, getTipNames. by rewrite tips_named. Qed.

Lemma is_tip_named m : is_tip (named m) = is_tip m.
Proof. apply for_nontips_is_tip with (vbody := setup_vbody), setup_body_view. Qed.

(** ** compare, node by node *)

Lemma compare_body_view names n u :
  compare_body names n u = compare_vbody names (view_of n) u.
Proof. done. Qed.

Lemma vloop_compare names vs :
  Forall has_acc vs →
  vloop (compare_vbody names) vs (Ok ()) = (bump names <$> vs, Ok ()).
Proof.
  induction 1 as [|[[nm bs] tn] vs [x Hx] _ IH]; [done|].
  simpl in Hx. subst bs. cbn [vloop]. unfold compare_vbody at 1. simpl.
  unfold bump at 1. simpl.
  destruct (supports names tn); rewrite IH; done.
Qed.

Lemma vloop_compare_exn names vs st :
  (∀ msg, st ≠ Raise (ValueError msg)) →
  ∀ msg, (vloop (compare_vbody names) vs st).2 ≠ Raise (ValueError msg).
Proof.
  revert st. induction vs as [|v vs IH]; intros st Hst msg; [by apply Hst|].
  cbn [vloop]. destruct st as [[]|e]; [|by apply Hst].
  unfold compare_vbody at 1.
  destruct (supports names v.2); [destruct v.1.2 as [x|]|]; try done.
  - specialize (IH (Ok ()) ltac:(done) msg).
    by destruct (vloop (compare_vbody names) vs (Ok ())).
  - specialize (IH (Ok ()) ltac:(done) msg).
    by destruct (vloop (compare_vbody names) vs (Ok ())).
Qed.

Lemma compare_mismatch m t :
  clade t ≠ clade m → compare m t = (m, Raise (ValueError mismatch_msg)).
Proof.
  intros H. unfold compare. fold (clade m) (clade t).
  by rewrite bool_decide_eq_true_2.
Qed.

Lemma compare_match m t :
  clade t = clade m →
  compare m t = for_nontips (compare_body (nodes_names t)) m (Ok ()).
Proof.
  intros H. unfold compare. fold (clade m) (clade t).
  by rewrite bool_decide_eq_false_2 by (by rewrite H; intros []).
Qed.

Lemma compare_ok m t :
  clade t = clade m → Forall has_acc (views m) →
  (compare m t).2 = Ok ()
  ∧ views (compare m t).1 = bump (nodes_names t) <$> views m
  ∧ tips (compare m t).1 = tips m.
Proof.
  intros Hc Hacc. rewrite compare_match by done.
  destruct (for_nontips_views _ _ (compare_body_view (nodes_names t)) m (Ok ()))
    as (Hv & Hs & Ht).
  rewrite vloop_compare in Hv, Hs by done. done.
Qed.

Lemma bump_has_acc names vs :
  Forall has_acc vs → Forall has_acc (bump names <$> vs).
Proof.
  intros H. apply Forall_fmap. eapply Forall_impl; [exact H|].
  intros [[nm bs] tn] [x Hx]; simpl in *. subst.
  unfold has_acc, bump; simpl. destruct (supports names tn); eauto.
Qed.

Lemma votes_nil tn : votes [] tn = 0.
Proof. done. Qed.

Lemma votes_cons t ts tn :
  votes (t :: ts) tn
  = (if supports (nodes_names t) tn then 1 else 0) + votes ts tn.
Proof.
  unfold votes. destruct (supports (nodes_names t) tn) eqn:E.
  - rewrite filter_cons_True by done. simpl length. lia.
  - rewrite filter_cons_False by (by rewrite E). lia.
Qed.

Lemma votes_bounds ts tn : 0 ≤ votes ts tn ≤ Z.of_nat (length ts).
Proof.
  unfold votes. split; [lia|]. apply inj_le, length_filter.
Qed.

Lemma int_acc_has_acc vs : Forall int_acc vs → Forall has_acc vs.
Proof.
  intros H. eapply Forall_impl; [exact H|].
  intros v [k Hk]. unfold has_acc. by rewrite Hk.
Qed.

Lemma add_votes_int_acc ts vs :
  Forall int_acc vs → Forall int_acc (add_votes ts <$> vs).
Proof.
  intros H. apply Forall_fmap. eapply Forall_impl; [exact H|].
  intros [[nm bs] tn] [k Hk]; simpl in *. subst.
  unfold int_acc, add_votes; simpl. eauto.
Qed.

Lemma bump_add_votes t ts v :
  int_acc v → add_votes ts (bump (nodes_names t) v) = add_votes (t :: ts) v.
Proof.
  destruct v as [[nm bs] tn]. intros [k Hk]; simpl in Hk; subst.
  unfold add_votes, bump; simpl. rewrite votes_cons.
  destruct (supports (nodes_names t) tn); simpl;
    [by rewrite Z.add_assoc | by rewrite Z.add_0_l].
Qed.

Lemma compare_all_ok ts : ∀ m,
  Forall (λ t, clade t = clade m) ts → Forall int_acc (views m) →
  (compare_all m ts).2 = Ok ()
  ∧ views (compare_all m ts).1 = add_votes ts <$> views m
  ∧ tips (compare_all m ts).1 = tips m.
Proof.
  induction ts as [|t ts IH]; intros m Hts Hacc.
  - simpl. split_and!; [done| |done].
    rewrite <- (list_fmap_id (views m)) at 1.
    apply Forall_fmap_ext_1. eapply Forall_impl; [exact Hacc|].
    intros [[nm bs] tn] [k Hk]; simpl in *. subst.
    unfold add_votes; simpl. by rewrite votes_nil, Z.add_0_r.
  - apply Forall_cons in Hts as [Ht Hts].
    destruct (compare_ok m t Ht (int_acc_has_acc _ Hacc)) as (Hs & Hv & Htips).
    cbn [compare_all].
    destruct (compare m t) as [m' [[]|e]]; simpl in Hs, Hv, Htips; [|done].
    assert (Hc : clade m' = clade m)
      by (unfold clade, getTipNames; by rewrite Htips).
    destruct (IH m') as (IHs & IHv & IHt).
    { eapply Forall_impl; [exact Hts|]. intros t' Ht'. by rewrite Hc. }
    { rewrite Hv. apply Forall_fmap. eapply Forall_impl; [exact Hacc|].
      intros [[nm bs] tn] [k Hk]; simpl in *. subst.
      unfold int_acc, bump; simpl. destruct (supports _ tn); simpl; eauto. }
    split_and!; [done| |by rewrite IHt].
    rewrite IHv, Hv, <- list_fmap_compose.
    apply Forall_fmap_ext_1. eapply Forall_impl; [exact Hacc|].
    intros v Hv'. by apply bump_add_votes.
Qed.

Lemma compare_all_app l1 l2 m :
  compare_all m (l1 ++ l2) =
    match compare_all m l1 with
    | (m', Ok _) => compare_all m' l2
    | (m', Raise e) => (m', Raise e)
    end.
Proof.
  revert m. induction l1 as [|t l1 IH]; intros m; simpl; [done|].
  destruct (compare m t) as [m' [[]|e]]; [apply IH|done].
Qed.

(** ** The final division, node by node *)

Lemma aggregate_body_view n node d :
  aggregate_body n node d = aggregate_vbody n (view_of node) d.
Proof. done. Qed.

Lemma py_truediv_ok x n : n ≠ 0 → py_truediv x n = Ok (quotient n x).
Proof. intros H. unfold py_truediv. by rewrite bool_decide_eq_false_2. Qed.

Lemma py_truediv_zero x : py_truediv x 0 = Raise ZeroDivisionError.
Proof. done. Qed.

Lemma vloop_aggregate n vs d :
  n ≠ 0 → Forall has_acc vs →
  vloop (aggregate_vbody n) vs (Ok d)
  = (normalize n <$> vs, Ok (foldl (record n) d vs)).
Proof.
  intros Hn H. revert d.
  induction H as [|[[nm bs] tn] vs [x Hx] _ IH]; intros d; [done|].
  simpl in Hx. subst bs. cbn [vloop]. unfold aggregate_vbody at 1. simpl.
  rewrite py_truediv_ok by done. by rewrite IH.
Qed.

Lemma vloop_aggregate_zero v vs d :
  has_acc v →
  vloop (aggregate_vbody 0) (v :: vs) (Ok d) = (v :: vs, Raise ZeroDivisionError).
Proof.
  intros [x Hx]. cbn [vloop]. unfold aggregate_vbody. by rewrite Hx.
Qed.

Lemma lookup_foldl_record_notin n vs : ∀ d k,
  k ∉ (λ v : view, v.1.1) <$> vs → foldl (record n) d vs !! k = d !! k.
Proof.
  induction vs as [|v vs IH]; intros d k Hk; [done|].
  rewrite fmap_cons, not_elem_of_cons in Hk. destruct Hk as [Hne Hk].
  simpl. rewrite IH by done. unfold record.
  destruct v.1.2; [by rewrite lookup_insert_ne|done].
Qed.

Lemma lookup_foldl_record_in n vs : ∀ d v x,
  NoDup ((λ v : view, v.1.1) <$> vs) → v ∈ vs → v.1.2 = Some x →
  foldl (record n) d vs !! v.1.1 = Some (quotient n x).
Proof.
  induction vs as [|v0 vs IH]; intros d v x Hnd Hin Hx.
  - by apply elem_of_nil in Hin.
  - rewrite fmap_cons, NoDup_cons in Hnd. destruct Hnd as [Hnotin Hnd].
    apply elem_of_cons in Hin as [->|Hin]; simpl.
    + rewrite lookup_foldl_record_notin by done.
      unfold record. rewrite Hx. apply lookup_insert_eq.
    + by apply IH.
Qed.

Lemma lookup_foldl_record_Some n vs : ∀ d k y,
  foldl (record n) d vs !! k = Some y →
  d !! k = Some y
  ∨ ∃ v x, v ∈ vs ∧ v.1.1 = k ∧ v.1.2 = Some x ∧ y = quotient n x.
Proof.
  induction vs as [|v vs IH]; intros d k y Hy; [by left|].
  simpl in Hy. apply IH in Hy as [Hy|(v' & x & Hin & ? & ? & ?)].
  - unfold record in Hy. destruct v.1.2 as [x|] eqn:Ex; [|by left].
    destruct (decide (v.1.1 = k)) as [<-|Hne].
    + rewrite lookup_insert_eq in Hy. injection Hy as <-.
      right. exists v, x. split_and!; try done. apply list_elem_of_here.
    + rewrite lookup_insert_ne in Hy by done. by left.
  - right. exists v', x. split_and!; try done. by apply list_elem_of_further.
Qed.

(** ** The three phases of bootstrap_support together *)

Lemma views_named_int_acc m : Forall int_acc (views (named m)).
Proof.
  rewrite views_named. eapply Forall_impl; [apply setup_views_acc|].
  intros v Hv. by exists 0.
Qed.

Lemma compare_all_named m ts :
  Forall (λ t, clade t = clade m) ts →
  (compare_all (named m) ts).2 = Ok ()
  ∧ views (compare_all (named m) ts).1 = counted m ts
  ∧ tips (compare_all (named m) ts).1 = tips m.
Proof.
  intros Hts. rewrite <- (tips_named m). apply compare_all_ok.
  - eapply Forall_impl; [exact Hts|]. intros t Ht. by rewrite clade_named.
  - apply views_named_int_acc.
Qed.

Lemma bootstrap_support_setup_raises m ts e :
  (setup_master_tree m).2 = Raise e →
  bootstrap_support m ts = (named m, Raise e).
Proof.
  intros H. unfold bootstrap_support.
  pose proof (setup_master_tree_fst m) as Hf.
  destruct (setup_master_tree m) as [m1 [[]|e']]; simpl in *; congruence.
Qed.

Lemma bootstrap_support_compared m ts :
  (setup_master_tree m).2 = Ok () →
  Forall (λ t, clade t = clade m) ts →
  bootstrap_support m ts
  = for_nontips (aggregate_body (Z.of_nat (length ts)))
      (compare_all (named m) ts).1 (Ok ∅).
Proof.
  intros Hs Hts. unfold bootstrap_support.
  pose proof (setup_master_tree_fst m) as Hf.
  destruct (setup_master_tree m) as [m1 [[]|e']]; simpl in *; [subst|done].
  destruct (compare_all_named m ts Hts) as (Hok & _).
  by destruct (compare_all (named m) ts) as [m2 [[]|e]].
Qed.

Lemma counted_int_acc m ts : Forall int_acc (counted m ts).
Proof. apply add_votes_int_acc, views_named_int_acc. Qed.

Lemma bootstrap_support_ok m ts :
  (setup_master_tree m).2 = Ok () → ts ≠ [] →
  Forall (λ t, clade t = clade m) ts →
  let n := Z.of_nat (length ts) in
  (bootstrap_support m ts).2 = Ok (foldl (record n) ∅ (counted m ts))
  ∧ views (bootstrap_support m ts).1 = normalize n <$> counted m ts
  ∧ tips (bootstrap_support m ts).1 = tips m.
Proof.
  intros Hs Hne Hts n. rewrite bootstrap_support_compared by done.
  destruct (compare_all_named m ts Hts) as (_ & Hv & Ht).
  destruct (for_nontips_views _ _ (aggregate_body_view n)
              (compare_all (named m) ts).1 (Ok ∅)) as (Hv' & Hs' & Ht').
  rewrite Hv in Hv', Hs'.
  assert (Hn : n ≠ 0) by (subst n; destruct ts; [done|]; simpl length; lia).
  pose proof (vloop_aggregate n (counted m ts) ∅ Hn
                (int_acc_has_acc _ (counted_int_acc m ts))) as E.
  rewrite E in Hv', Hs'. fold n. by rewrite Hv', Hs', Ht', Ht.
Qed.

(** ** Fractions *)

Lemma quotient_unit_interval n k :
  0 ≤ k ≤ n → 0 < n → unit_interval (quotient n (PyInt k)).
Proof.
  intros [Hk Hkn] Hn. eexists. split; [done|]. simpl.
  rewrite Qred_correct. destruct n as [|p|p]; try lia.
  unfold Qle, Qdiv, Qmult, Qinv, inject_Z; simpl. lia.
Qed.

Lemma quotient_self n : 0 < n → quotient n (PyInt n) = PyFloat 1.
Proof.
  intros Hn. unfold quotient; simpl. f_equal.
  change 1%Q with (Qred 1). apply Qred_complete.
  destruct n as [|p|p]; try lia.
  unfold Qeq, Qdiv, Qmult, Qinv, inject_Z; simpl. lia.
Qed.

(** ** Labels *)

Lemma size_pyset_le l : (size (pyset l) ≤ length l)%nat.
Proof.
  unfold pyset. induction l as [|x l IH]; simpl; [done|].
  destruct (decide (x ∈ (list_to_set l : gset (option string)))) as [Hin|Hin].
  - rewrite subseteq_union_1_L by (by apply singleton_subseteq_l). lia.
  - rewrite size_union by set_solver. rewrite size_singleton. lia.
Qed.

Lemma size_pyset_NoDup l : size (pyset l) = length l ↔ NoDup l.
Proof.
  split; [|apply size_list_to_set].
  unfold pyset. induction l as [|x l IH]; simpl; [constructor|].
  intros Hsz. pose proof (size_pyset_le l) as Hle. unfold pyset in Hle.
  destruct (decide (x ∈ (list_to_set l : gset (option string)))) as [Hin|Hin].
  - rewrite subseteq_union_1_L in Hsz by (by apply singleton_subseteq_l). lia.
  - rewrite size_union, size_singleton in Hsz by set_solver.
    constructor; [|apply IH; lia].
    intros Hx. apply Hin. by apply elem_of_list_to_set.
Qed.

Lemma setup_ok_NoDup m :
  (setup_master_tree m).2 = Ok () ↔ NoDup (getNodeNames (named m)).
Proof.
  rewrite setup_master_tree_snd, <- size_pyset_NoDup.
  case_bool_decide; split; intros; done.
Qed.

Lemma labels_views t : label <$> views t = Name <$> iterNontips t.
Proof. unfold views. by rewrite <- list_fmap_compose. Qed.

Lemma NoDup_labels t : NoDup (getNodeNames t) → NoDup (label <$> views t).
Proof.
  rewrite labels_views. unfold getNodeNames, iterNontips.
  intros H. eapply sublist_NoDup; [exact H|].
  apply fmap_sublist, sublist_filter.
Qed.

Lemma labels_counted m ts : label <$> counted m ts = label <$> views (named m).
Proof. unfold counted. by rewrite <- list_fmap_compose. Qed.

Lemma counted_acc m ts v :
  v ∈ counted m ts → v.1.2 = Some (PyInt (votes ts v.2)).
Proof.
  unfold counted. rewrite views_named.
  intros (v0 & -> & Hin)%list_elem_of_fmap.
  pose proof (setup_views_acc 0 (views m)) as H.
  rewrite Forall_forall in H. specialize (H _ Hin).
  unfold add_votes. by rewrite H.
Qed.

(** ** Votes on the clade of all leaves *)

Lemma root_supports t tn :
  is_tip t = false → pyset tn = clade t → supports (nodes_names t) tn = true.
Proof.
  intros Ht Hc. unfold supports. apply bool_decide_eq_true_2.
  rewrite Hc. unfold nodes_names, clade.
  apply list_elem_of_fmap_2, list_elem_of_fmap_2.
  destruct t as [nm bs [|c cs]]; [done|].
  rewrite iterNontips_inner. apply list_elem_of_here.
Qed.

Lemma votes_full ts tn :
  Forall (λ t, is_tip t = false ∧ clade t = pyset tn) ts →
  votes ts tn = Z.of_nat (length ts).
Proof.
  induction 1 as [|t ts [Ht Hc] _ IH]; [done|].
  rewrite votes_cons, IH, root_supports by done. simpl length. lia.
Qed.

(** ** Small runs *)

Example getTipNames_of_a_leaf : getTipNames (leaf "x") = [Some "x"%string].
Proof. reflexivity. Qed.

Example iterNontips_of_a_leaf : iterNontips (leaf "x") = [].
Proof. reflexivity. Qed.

Example getNodeNames_after_setup :
  getNodeNames (setup_master_tree master_ABCD).1
  = [Some "node0"; Some "n1"; Some "A"; Some "B";
     Some "n2"; Some "C"; Some "D"]%string.
Proof. vm_compute. reflexivity. Qed.

(** An internal label that is also a leaf label. *)
Example setup_leaf_label_clash :
  (setup_master_tree (inner (Some "A"%string) [leaf "A"; leaf "B"])).2
  = Raise (ValueError nonunique_msg).
Proof. vm_compute. reflexivity. Qed.

(** An internal label that is also a label the counter hands out. *)
Example setup_generated_label_clash :
  (setup_master_tree
     (inner None [inner (Some "node0"%string) [leaf "A"; leaf "B"];
                  leaf "C"])).2
  = Raise (ValueError nonunique_msg).
Proof. vm_compute. reflexivity. Qed.

(** A master tree that did not go through [setup_master_tree] has no
    accumulator to add to. *)
Example compare_without_setup :
  (compare master_ABCD tree_AB_CD).2
  = Raise (AttributeError "bootstrap_support").
Proof. vm_compute. reflexivity. Qed.

Example compare_after_setup :
  views (compare (setup_master_tree master_ABCD).1 tree_AC_BD).1
  = [ (Some "node0"%string, Some (PyInt 1),
       [Some "A"; Some "B"; Some "C"; Some "D"]%string);
      (Some "n1"%string, Some (PyInt 0), [Some "A"; Some "B"]%string);
      (Some "n2"%string, Some (PyInt 0), [Some "C"; Some "D"]%string) ].
Proof. vm_compute. reflexivity. Qed.

(** ** The concrete scenario *)

(** C1: for the master tree [((A,B)n1,(C,D)n2);] and the comparison trees
    [((A,B),(C,D));] and [((A,C),(B,D));], [bootstrap_support] returns a
    mapping in which [n1] (clade A, B) has support 0.5, [n2] (clade C, D)
    has support 0.5 and the root (clade A, B, C, D; it is labelled [node0]
    by the run) has support 1.0; the nodes of the returned master tree
    carry the same values. *)
Theorem C1_concrete_scenario :
  ∃ d,
    (bootstrap_support master_ABCD [tree_AB_CD; tree_AC_BD]).2 = Ok d
    ∧ d !! Some "n1"%string = Some (PyFloat (1 # 2))
    ∧ d !! Some "n2"%string = Some (PyFloat (1 # 2))
    ∧ d !! Name (bootstrap_support master_ABCD [tree_AB_CD; tree_AC_BD]).1
      = Some (PyFloat 1)
    ∧ views (bootstrap_support master_ABCD [tree_AB_CD; tree_AC_BD]).1
      = [ (Some "node0"%string, Some (PyFloat 1),
           [Some "A"; Some "B"; Some "C"; Some "D"]%string);
          (Some "n1"%string, Some (PyFloat (1 # 2)),
           [Some "A"; Some "B"]%string);
          (Some "n2"%string, Some (PyFloat (1 # 2)),
           [Some "C"; Some "D"]%string) ]
    ∧ size d = 3%nat.
Proof.
  eexists. split; [vm_compute; reflexivity|].
  repeat split; vm_compute; reflexivity.
Qed.

(** ** Leaf sets that differ *)

(** C2: [compare] raises the [ValueError] of a leaf-set mismatch if and only
    if the set of leaf labels of the comparison tree differs from that of
    the master tree; and when it raises it, the master tree is returned as
    it was passed in, so no accumulator has been incremented. *)
Theorem C2_compare_raises_iff_leaf_sets_differ (m t : PhyloNode) :
  ((∃ msg, (compare m t).2 = Raise (ValueError msg)) ↔ clade t ≠ clade m)
  ∧ (∀ msg, (compare m t).2 = Raise (ValueError msg) →
       msg = mismatch_msg ∧ (compare m t).1 = m).
Proof.
  assert (Hmatch : clade t = clade m →
            ∀ msg, (compare m t).2 ≠ Raise (ValueError msg)).
  { intros Hc msg. rewrite compare_match by done.
    destruct (for_nontips_views _ _ (compare_body_view (nodes_names t)) m (Ok ()))
      as (_ & -> & _).
    by apply vloop_compare_exn. }
  split.
  - split.
    + intros [msg Hmsg] Hc. by apply (Hmatch Hc msg).
    + intros Hne. exists mismatch_msg. by rewrite compare_mismatch.
  - intros msg Hmsg.
    destruct (decide (clade t = clade m)) as [Hc|Hne].
    + by destruct (Hmatch Hc msg).
    + rewrite compare_mismatch in Hmsg |- * by done.
      simpl in *. by injection Hmsg as <-.
Qed.

(** C8, as the claim states it, fails: the error raised for the master
    leaves A, B, C, D against the comparison leaves A, B, C, E is the very
    error raised against the comparison leaves A, B, C, F, although the
    labels that differ are not the same; the error is a fixed message and
    carries no label. *)
Lemma C8_error_carries_no_labels :
  (compare master_ABCD tree_AB_CE).2 = Raise (ValueError mismatch_msg)
  ∧ (compare master_ABCD tree_AB_CF).2 = Raise (ValueError mismatch_msg)
  ∧ clade master_ABCD ∖ clade tree_AB_CE = {[ Some "D"%string ]}
  ∧ clade tree_AB_CE ∖ clade master_ABCD = {[ Some "E"%string ]}
  ∧ clade master_ABCD ∖ clade tree_AB_CF = {[ Some "D"%string ]}
  ∧ clade tree_AB_CF ∖ clade master_ABCD = {[ Some "F"%string ]}
  ∧ ¬ ∃ differences : exn → gset (option string) * gset (option string),
        ∀ m t e, (compare m t).2 = Raise e → clade t ≠ clade m →
                 differences e = (clade m ∖ clade t, clade t ∖ clade m).
Proof.
  split_and!; try (vm_compute; reflexivity).
  intros [f Hf].
  pose proof (Hf master_ABCD tree_AB_CE (ValueError mismatch_msg)) as H1.
  pose proof (Hf master_ABCD tree_AB_CF (ValueError mismatch_msg)) as H2.
  assert (E1 : (compare master_ABCD tree_AB_CE).2
               = Raise (ValueError mismatch_msg)) by (vm_compute; reflexivity).
  assert (E2 : (compare master_ABCD tree_AB_CF).2
               = Raise (ValueError mismatch_msg)) by (vm_compute; reflexivity).
  assert (N1 : clade tree_AB_CE ≠ clade master_ABCD) by (vm_compute; discriminate).
  assert (N2 : clade tree_AB_CF ≠ clade master_ABCD) by (vm_compute; discriminate).
  specialize (H1 E1 N1). specialize (H2 E2 N2).
  rewrite H1 in H2. revert H2. vm_compute. discriminate.
Qed.

(** C8, amended: when the leaf sets differ, [compare] raises a [ValueError]
    with one fixed message, the same for every mismatch, and returns the
    master tree as it was passed in; the error does not carry the labels
    that differ. *)
Theorem C8_mismatch_error_is_fixed_message (m t : PhyloNode) :
  clade t ≠ clade m →
  compare m t = (m, Raise (ValueError mismatch_msg)).
Proof. apply compare_mismatch. Qed.

Lemma C8_mismatch_error_witness :
  compare master_ABCD tree_AB_CE
  = (master_ABCD, Raise (ValueError mismatch_msg)).
Proof.
  apply (C8_mismatch_error_is_fixed_message master_ABCD tree_AB_CE).
  vm_compute. discriminate.
Defined.

(** ** No comparison tree *)

(** C7, as the claim states it, fails: for a master tree that is a single
    leaf and no comparison tree, [bootstrap_support] raises nothing and
    returns the empty mapping. *)
Lemma C7_single_leaf_master_returns :
  bootstrap_support (leaf "A") [] = (leaf "A", Ok ∅).
Proof. vm_compute. reflexivity. Qed.

(** C7, amended: when the collection of comparison trees is empty and the
    master tree has passed [setup_master_tree], the final loop of
    [bootstrap_support] raises [ZeroDivisionError] at its first internal
    node, the root, if the master tree has an internal node, and no mapping
    is produced; the master tree is left as [setup_master_tree] left it.  If
    the master tree is a single leaf, the loop has nothing to divide and the
    empty mapping is returned. *)
Theorem C7_no_comparison_tree (m : PhyloNode) :
  (setup_master_tree m).2 = Ok () →
  bootstrap_support m []
  = ((setup_master_tree m).1,
     if is_tip m then Ok ∅ else Raise ZeroDivisionError).
Proof.
  intros Hs. rewrite bootstrap_support_compared by done.
  rewrite setup_master_tree_fst. cbn [compare_all fst length Z.of_nat].
  pose proof (views_named_int_acc m) as Hacc.
  rewrite <- (is_tip_named m).
  destruct (named m) as [nm bs [|c cs]]; [done|].
  rewrite views_inner in Hacc. apply Forall_cons in Hacc as [[k Hk] _].
  simpl in Hk. subst bs. done.
Qed.

Lemma C7_no_comparison_tree_witness :
  bootstrap_support master_ABCD []
  = ((setup_master_tree master_ABCD).1, Raise ZeroDivisionError).
Proof.
  apply (C7_no_comparison_tree master_ABCD). vm_compute. reflexivity.
Defined.

(** ** An error after some trees were compared *)

(** C10: when the master tree has passed [setup_master_tree], the trees
    [pre] all have its leaf set and the next tree [bad] has not,
    [bootstrap_support] raises the [ValueError] of the mismatch and leaves
    the master tree as the comparisons with [pre] left it: every internal
    node keeps, as an [int], the number of trees of [pre] that support it.
    Nothing is rolled back, and the trees after [bad] are not looked at. *)
Theorem C10_error_keeps_earlier_increments
    (m : PhyloNode) (pre : list PhyloNode) (bad : PhyloNode)
    (post : list PhyloNode) :
  (setup_master_tree m).2 = Ok () →
  Forall (λ t, clade t = clade m) pre →
  clade bad ≠ clade m →
  bootstrap_support m (pre ++ bad :: post)
  = ((compare_all (setup_master_tree m).1 pre).1,
     Raise (ValueError mismatch_msg))
  ∧ (compare_all (setup_master_tree m).1 pre).2 = Ok ()
  ∧ views (compare_all (setup_master_tree m).1 pre).1
    = (λ v : view, (v.1.1, Some (PyInt (votes pre v.2)), v.2))
        <$> views (setup_master_tree m).1.
Proof.
  intros Hs Hpre Hbad. rewrite !setup_master_tree_fst.
  destruct (compare_all_named m pre Hpre) as (Hok & Hv & Ht).
  split_and!; [|done|].
  - unfold bootstrap_support.
    pose proof (setup_master_tree_fst m) as Hf.
    destruct (setup_master_tree m) as [m1 [[]|e']]; simpl in *; [subst|done].
    rewrite compare_all_app.
    destruct (compare_all (named m) pre) as [m2 [[]|e]]; simpl in *; [|done].
    rewrite compare_mismatch; [done|].
    unfold clade at 2, getTipNames. rewrite Ht. exact Hbad.
  - rewrite Hv. unfold counted. apply Forall_fmap_ext_1.
    pose proof (views_named m) as Hn. rewrite Hn.
    eapply Forall_impl; [apply setup_views_acc|].
    intros v Hv0. unfold add_votes. by rewrite Hv0.
Qed.

Lemma C10_error_keeps_earlier_increments_witness :
  bootstrap_support master_ABCD ([tree_AB_CD; tree_AC_BD] ++ tree_AB_CE :: [])
  = ((compare_all (setup_master_tree master_ABCD).1
        [tree_AB_CD; tree_AC_BD]).1,
     Raise (ValueError mismatch_msg))
  ∧ (compare_all (setup_master_tree master_ABCD).1
       [tree_AB_CD; tree_AC_BD]).2 = Ok ()
  ∧ views (compare_all (setup_master_tree master_ABCD).1
             [tree_AB_CD; tree_AC_BD]).1
    = (λ v : view,
         (v.1.1, Some (PyInt (votes [tree_AB_CD; tree_AC_BD] v.2)), v.2))
        <$> views (setup_master_tree master_ABCD).1.
Proof.
  apply (C10_error_keeps_earlier_increments
           master_ABCD [tree_AB_CD; tree_AC_BD] tree_AB_CE []).
  - vm_compute. reflexivity.
  - repeat constructor; vm_compute; reflexivity.
  - vm_compute. discriminate.
Defined.

(** ** Support fractions *)

Lemma dom_foldl_record n vs : ∀ d,
  Forall has_acc vs →
  dom (foldl (record n) d vs) = dom d ∪ list_to_set (label <$> vs).
Proof.
  induction vs as [|v vs IH]; intros d Hacc.
  - change (dom d = dom d ∪ ∅). by rewrite (right_id_L ∅ (∪)).
  - apply Forall_cons in Hacc as [[x Hx] Hacc]. cbn [foldl].
    rewrite IH by done.
    unfold record. rewrite Hx, dom_insert_L, fmap_cons.
    change (list_to_set (label v :: (label <$> vs)))
      with ({[v.1.1]} ∪ (list_to_set (label <$> vs) : gset (option string))).
    by rewrite (comm_L (∪) {[v.1.1]} (dom d)), <- (assoc_L (∪)).
Qed.

Lemma Forall_views (P : view → Prop) t :
  Forall P (views t) ↔ Forall (λ n, P (view_of n)) (iterNontips t).
Proof. unfold views. apply Forall_fmap. Qed.

Lemma bump_int_acc names vs :
  Forall int_acc vs → Forall int_acc (bump names <$> vs).
Proof.
  intros H. apply Forall_fmap. eapply Forall_impl; [exact H|].
  intros [[nm bs] tn] [k Hk]; simpl in *. subst.
  unfold int_acc, bump; simpl. destruct (supports names tn); simpl; eauto.
Qed.

(** [compare_all] only returns when every tree has the leaf set of the
    master tree. *)
Lemma compare_all_Ok_inv ts : ∀ m,
  Forall int_acc (views m) → (compare_all m ts).2 = Ok () →
  Forall (λ t, clade t = clade m) ts.
Proof.
  induction ts as [|t ts IH]; intros m Hacc Hok; [constructor|].
  cbn [compare_all] in Hok.
  destruct (decide (clade t = clade m)) as [Ht|Ht];
    [|by rewrite compare_mismatch in Hok].
  destruct (compare_ok m t Ht (int_acc_has_acc _ Hacc)) as (Hs & Hv & Htips).
  destruct (compare m t) as [m' [[]|e]]; simpl in Hs, Hv, Htips; [|done].
  assert (Hc : clade m' = clade m)
    by (unfold clade, getTipNames; by rewrite Htips).
  constructor; [done|].
  eapply Forall_impl; [apply (IH m')|]; [|done|].
  - rewrite Hv. by apply bump_int_acc.
  - intros t' Ht'. simpl in Ht'. by rewrite <- Hc.
Qed.

Lemma bootstrap_support_Ok_inv m ts d :
  (bootstrap_support m ts).2 = Ok d →
  (setup_master_tree m).2 = Ok ()
  ∧ Forall (λ t, clade t = clade m) ts.
Proof.
  intros Hd.
  destruct (setup_master_tree m).2 as [[]|e] eqn:Hs;
    [|by rewrite (bootstrap_support_setup_raises _ _ _ Hs) in Hd].
  split; [done|]. revert Hd. unfold bootstrap_support.
  pose proof (setup_master_tree_fst m) as Hf.
  destruct (setup_master_tree m) as [m1 [[]|e']]; simpl in *; [subst|done].
  intros Hd. rewrite <- (clade_named m).
  apply compare_all_Ok_inv; [apply views_named_int_acc|].
  by destruct (compare_all (named m) ts) as [m2 [[]|e]].
Qed.

Lemma normalize_counted_unit_interval m ts v :
  ts ≠ [] → v ∈ counted m ts →
  (normalize (Z.of_nat (length ts)) v).1.2
  = Some (quotient (Z.of_nat (length ts)) (PyInt (votes ts v.2)))
  ∧ unit_interval (quotient (Z.of_nat (length ts)) (PyInt (votes ts v.2))).
Proof.
  intros Hne Hin. unfold normalize; simpl.
  rewrite (counted_acc _ _ _ Hin). split; [done|].
  apply quotient_unit_interval; [apply votes_bounds|].
  destruct ts; [done|]. simpl length. lia.
Qed.

(** The fractions of a run that returns, whatever the input. *)
Lemma bootstrap_support_unit_interval m ts d :
  (bootstrap_support m ts).2 = Ok d →
  (∀ k x, d !! k = Some x → unit_interval x)
  ∧ Forall (λ n, ∃ x, bootstrap_support_attr n = Some x ∧ unit_interval x)
      (iterNontips (bootstrap_support m ts).1).
Proof.
  intros Hd. destruct (bootstrap_support_Ok_inv _ _ _ Hd) as [Hs Hts].
  destruct ts as [|t ts].
  - rewrite bootstrap_support_compared in Hd |- * by done.
    cbn [compare_all fst length] in *. change (Z.of_nat 0) with 0 in *.
    destruct (for_nontips_views _ _ (aggregate_body_view 0) (named m) (Ok ∅))
      as (Hv & Hs' & _).
    pose proof (views_named_int_acc m) as Hacc.
    destruct (views (named m)) as [|v vs] eqn:Ev.
    + simpl in Hv, Hs'. rewrite Hs' in Hd. injection Hd as <-.
      split; [by intros k x; rewrite lookup_empty|].
      apply (Forall_views (λ v, ∃ x, v.1.2 = Some x ∧ unit_interval x)).
      rewrite Hv. constructor.
    + apply Forall_cons in Hacc as [[k Hk] _].
      rewrite vloop_aggregate_zero in Hs' by (unfold has_acc; by rewrite Hk).
      rewrite Hs' in Hd. discriminate.
  - destruct (bootstrap_support_ok m (t :: ts) Hs ltac:(done) Hts)
      as (Hd' & Hv & _).
    rewrite Hd' in Hd. injection Hd as <-. split.
    + intros k x Hx.
      apply lookup_foldl_record_Some in Hx
        as [Hx|(v & y & Hin & _ & Hy & ->)]; [by rewrite lookup_empty in Hx|].
      rewrite (counted_acc _ _ _ Hin) in Hy. injection Hy as <-.
      by apply (normalize_counted_unit_interval m (t :: ts) v).
    + apply (Forall_views (λ v, ∃ x, v.1.2 = Some x ∧ unit_interval x)).
      rewrite Hv. apply Forall_fmap, Forall_forall. intros v Hin.
      eexists. by apply (normalize_counted_unit_interval m (t :: ts) v).
Qed.

Lemma labels_normalize n (vs : list view) :
  label <$> (normalize n <$> vs) = label <$> vs.
Proof. by rewrite <- list_fmap_compose. Qed.

(** C3: when every comparison tree has the leaf-label set of the master
    tree, every support fraction that [bootstrap_support] produces, in the
    mapping it returns and on the internal nodes of the master tree it
    returns, is a [float] between 0 and 1, both included.  Such a run does
    return when the master tree passes [setup_master_tree] and there is at
    least one comparison tree, and its mapping then has exactly the labels
    of the internal nodes as keys. *)
Theorem C3_support_fraction_in_unit_interval
    (m : PhyloNode) (ts : list PhyloNode) :
  Forall (λ t, clade t = clade m) ts →
  (∀ d, (bootstrap_support m ts).2 = Ok d →
     (∀ k x, d !! k = Some x → unit_interval x)
     ∧ Forall (λ n, ∃ x, bootstrap_support_attr n = Some x ∧ unit_interval x)
         (iterNontips (bootstrap_support m ts).1))
  ∧ ((setup_master_tree m).2 = Ok () → ts ≠ [] →
     ∃ d, (bootstrap_support m ts).2 = Ok d
          ∧ dom d
            = list_to_set (Name <$> iterNontips (bootstrap_support m ts).1)).
Proof.
  intros Hts. split; [apply bootstrap_support_unit_interval|].
  intros Hs Hne.
  destruct (bootstrap_support_ok m ts Hs Hne Hts) as (Hd & Hv & _).
  eexists. split; [exact Hd|].
  rewrite dom_foldl_record by apply int_acc_has_acc, counted_int_acc.
  rewrite dom_empty_L, (left_id_L ∅ (∪)).
  by rewrite <- labels_views, Hv, labels_normalize.
Qed.

Lemma C3_support_fraction_witness :
  (∀ d, (bootstrap_support master_ABCD [tree_AB_CD; tree_AC_BD]).2 = Ok d →
     (∀ k x, d !! k = Some x → unit_interval x)
     ∧ Forall (λ n, ∃ x, bootstrap_support_attr n = Some x ∧ unit_interval x)
         (iterNontips
            (bootstrap_support master_ABCD [tree_AB_CD; tree_AC_BD]).1))
  ∧ ((setup_master_tree master_ABCD).2 = Ok () →
     [tree_AB_CD; tree_AC_BD] ≠ [] →
     ∃ d, (bootstrap_support master_ABCD [tree_AB_CD; tree_AC_BD]).2 = Ok d
          ∧ dom d
            = list_to_set
                (Name <$> iterNontips
                   (bootstrap_support master_ABCD [tree_AB_CD; tree_AC_BD]).1)).
Proof.
  apply (C3_support_fraction_in_unit_interval
           master_ABCD [tree_AB_CD; tree_AC_BD]).
  repeat constructor; vm_compute; reflexivity.
Defined.

(** ** The clade of all leaves *)

(** C4, as the claim states it, fails: the master tree [(x);] and the one
    comparison tree [x;] have the same leaf set, the root of the master
    tree has the clade of all leaves, and its support is 0.0: the comparison
    tree is a bare leaf and has no internal node to match. *)
Lemma C4_bare_leaf_comparison_tree :
  [tip_x] ≠ []
  ∧ Forall (λ t, clade t = clade chain_x) [tip_x]
  ∧ (setup_master_tree chain_x).2 = Ok ()
  ∧ ∃ d n,
      bootstrap_support chain_x [tip_x] = (n, Ok d)
      ∧ n ∈ iterNontips n
      ∧ clade n = clade chain_x
      ∧ bootstrap_support_attr n = Some (PyFloat 0)
      ∧ d !! Name n = Some (PyFloat 0).
Proof.
  split; [done|]. split; [by repeat constructor|].
  split; [vm_compute; reflexivity|].
  eexists _, _. split; [vm_compute; reflexivity|].
  split; [apply list_elem_of_here|].
  repeat split; vm_compute; reflexivity.
Qed.

Lemma view_of_elem n t : n ∈ iterNontips t → view_of n ∈ views t.
Proof. apply list_elem_of_fmap_2. Qed.

(** C4, amended: when the master tree passes [setup_master_tree] and every
    tree of a non-empty collection of comparison trees has the leaf-label
    set of the master tree and at least one internal node (its root is not
    a bare leaf), every internal node of the master tree whose clade is the
    set of all leaf labels has support exactly 1.0, on the node and in the
    mapping; the root is such a node when the master tree is not a bare
    leaf. *)
Theorem C4_full_clade_has_support_one
    (m : PhyloNode) (ts : list PhyloNode) :
  (setup_master_tree m).2 = Ok () →
  ts ≠ [] →
  Forall (λ t, clade t = clade m ∧ is_tip t = false) ts →
  ∃ d,
    (bootstrap_support m ts).2 = Ok d
    ∧ (∀ n, n ∈ iterNontips (bootstrap_support m ts).1 →
            clade n = clade m →
            bootstrap_support_attr n = Some (PyFloat 1)
            ∧ d !! Name n = Some (PyFloat 1))
    ∧ (is_tip m = false →
       (bootstrap_support m ts).1 ∈ iterNontips (bootstrap_support m ts).1
       ∧ clade (bootstrap_support m ts).1 = clade m).
Proof.
  intros Hs Hne Hts.
  assert (Hts' : Forall (λ t, clade t = clade m) ts)
    by (eapply Forall_impl; [exact Hts|]; by intros t [? _]).
  destruct (bootstrap_support_ok m ts Hs Hne Hts') as (Hd & Hv & Ht).
  eexists. split; [exact Hd|]. split.
  - intros n Hn Hc. apply view_of_elem in Hn. rewrite Hv in Hn.
    apply list_elem_of_fmap in Hn as (v & Ev & Hin).
    pose proof (counted_acc _ _ _ Hin) as Hacc.
    assert (Hfull : votes ts v.2 = Z.of_nat (length ts)).
    { apply votes_full. eapply Forall_impl; [exact Hts|].
      intros t [Hct Htip]. split; [done|]. rewrite Hct, <- Hc.
      unfold clade. change (getTipNames n) with (view_of n).2.
      by rewrite Ev. }
    assert (Hq : quotient (Z.of_nat (length ts)) (PyInt (votes ts v.2))
                 = PyFloat 1).
    { rewrite Hfull. apply quotient_self. destruct ts; [done|].
      simpl length. lia. }
    split.
    + change (bootstrap_support_attr n) with (view_of n).1.2.
      rewrite Ev. unfold normalize. cbn [fst snd]. rewrite Hacc.
      cbn [fmap option_fmap option_map]. by rewrite Hq.
    + change (Name n) with (view_of n).1.1. rewrite Ev.
      change (normalize (Z.of_nat (length ts)) v).1.1 with v.1.1.
      rewrite <- Hq. apply lookup_foldl_record_in; [|done|done].
      rewrite labels_counted. by apply NoDup_labels, setup_ok_NoDup.
  - intros Htip. split.
    + assert (Hnt : is_tip (bootstrap_support m ts).1 = false).
      { destruct (is_tip (bootstrap_support m ts).1) eqn:E; [|done].
        apply is_tip_views in E. rewrite Hv in E.
        apply fmap_nil_inv in E. unfold counted in E.
        apply fmap_nil_inv in E. apply views_nil_is_tip in E.
        rewrite is_tip_named in E. congruence. }
      destruct (bootstrap_support m ts).1 as [nm bs [|c cs]]; [done|].
      rewrite iterNontips_inner. apply list_elem_of_here.
    + unfold clade, getTipNames. by rewrite Ht.
Qed.

Lemma C4_full_clade_witness :
  ∃ d,
    (bootstrap_support master_ABCD [tree_AB_CD; tree_AC_BD]).2 = Ok d
    ∧ (∀ n,
         n ∈ iterNontips (bootstrap_support master_ABCD
                            [tree_AB_CD; tree_AC_BD]).1 →
         clade n = clade master_ABCD →
         bootstrap_support_attr n = Some (PyFloat 1)
         ∧ d !! Name n = Some (PyFloat 1))
    ∧ (is_tip master_ABCD = false →
       (bootstrap_support master_ABCD [tree_AB_CD; tree_AC_BD]).1
         ∈ iterNontips
             (bootstrap_support master_ABCD [tree_AB_CD; tree_AC_BD]).1
       ∧ clade (bootstrap_support master_ABCD [tree_AB_CD; tree_AC_BD]).1
         = clade master_ABCD).
Proof.
  apply (C4_full_clade_has_support_one master_ABCD [tree_AB_CD; tree_AC_BD]).
  - vm_compute. reflexivity.
  - done.
  - repeat constructor; vm_compute; reflexivity.
Defined.

(** ** Labels given by setup_master_tree *)

Lemma unnamed_spec nm : unnamed nm = true ↔ nm = None ∨ nm = Some ""%string.
Proof.
  unfold unnamed. rewrite orb_true_iff, !bool_decide_eq_true. done.
Qed.

Lemma names_named m :
  Name <$> iterNontips (named m) = assign_names 0 (Name <$> iterNontips m).
Proof.
  rewrite <- !labels_views, views_named. apply setup_views_names.
Qed.

(** C5: [setup_master_tree] labels the internal nodes, the root included,
    in traversal order: the node at position [j] whose label is missing or
    empty gets ["node"] followed by the number of labels handed out before
    it (a counter that starts at 0 and goes up by one with every label
    handed out), and a node that has a non-empty label keeps it.  The
    labels are those of [assign_names], and the leaves are not touched. *)
Theorem C5_setup_labels_unnamed_internal_nodes
    (m : PhyloNode) (j : nat) (n : PhyloNode) :
  iterNontips m !! j = Some n →
  (∃ n',
     iterNontips (setup_master_tree m).1 !! j = Some n'
     ∧ (Name n = None ∨ Name n = Some ""%string →
        Name n'
        = Some ("node"
                +:+ pretty (assigned_before j (Name <$> iterNontips m))))
     ∧ (Name n ≠ None → Name n ≠ Some ""%string → Name n' = Name n))
  ∧ Name <$> iterNontips (setup_master_tree m).1
    = assign_names 0 (Name <$> iterNontips m)
  ∧ tips (setup_master_tree m).1 = tips m.
Proof.
  intros Hj. rewrite setup_master_tree_fst.
  split; [|split; [apply names_named | apply tips_named]].
  assert (Hnm : (Name <$> iterNontips m) !! j = Some (Name n))
    by (by rewrite list_lookup_fmap, Hj).
  pose proof (assign_names_lookup _ 0 _ _ Hnm) as Ha.
  rewrite <- names_named, list_lookup_fmap in Ha.
  destruct (iterNontips (named m) !! j) as [n'|]; [|done].
  simpl in Ha. injection Ha as Ha. exists n'. split; [done|].
  rewrite Ha. split.
  - intros Hu%unnamed_spec. by rewrite Hu.
  - intros H1 H2. destruct (unnamed (Name n)) eqn:Hu; [|done].
    apply unnamed_spec in Hu as [?|?]; done.
Qed.

Lemma C5_setup_labels_witness :
  (∃ n',
     iterNontips (setup_master_tree tree_AB_CD).1 !! 2%nat = Some n'
     ∧ (Name (inner None [leaf "C"; leaf "D"]) = None
        ∨ Name (inner None [leaf "C"; leaf "D"]) = Some ""%string →
        Name n'
        = Some ("node"
                +:+ pretty (assigned_before 2 (Name <$> iterNontips tree_AB_CD))))
     ∧ (Name (inner None [leaf "C"; leaf "D"]) ≠ None →
        Name (inner None [leaf "C"; leaf "D"]) ≠ Some ""%string →
        Name n' = Name (inner None [leaf "C"; leaf "D"])))
  ∧ Name <$> iterNontips (setup_master_tree tree_AB_CD).1
    = assign_names 0 (Name <$> iterNontips tree_AB_CD)
  ∧ tips (setup_master_tree tree_AB_CD).1 = tips tree_AB_CD.
Proof.
  apply (C5_setup_labels_unnamed_internal_nodes
           tree_AB_CD 2 (inner None [leaf "C"; leaf "D"])).
  vm_compute. reflexivity.
Defined.

(** ** Labels that are not unique *)

Lemma not_NoDup_fmap_lookup {A B} `{EqDecision B} (f : A → B) (l : list A) :
  ¬ NoDup (f <$> l) →
  ∃ i j x y, i ≠ j ∧ l !! i = Some x ∧ l !! j = Some y ∧ f x = f y.
Proof.
  induction l as [|x l IH]; intros Hd; [by destruct Hd; constructor|].
  rewrite fmap_cons, NoDup_cons in Hd.
  destruct (decide (f x ∈ f <$> l)) as [Hin|Hin].
  - apply list_elem_of_fmap in Hin as (y & Ey & Hy).
    apply list_elem_of_lookup in Hy as [k Hk].
    exists 0%nat, (Datatypes.S k), x, y.
    split_and!; [done|done|exact Hk|exact Ey].
  - destruct IH as (i & j & n1 & n2 & Hne & H1 & H2 & E);
      [by intros ?; apply Hd|].
    exists (Datatypes.S i), (Datatypes.S j), n1, n2.
    split_and!; try done. congruence.
Qed.

Lemma shares_label_not_NoDup t : shares_label t ↔ ¬ NoDup (getNodeNames t).
Proof.
  unfold getNodeNames. split.
  - rewrite NoDup_alt.
    intros (i & j & n1 & n2 & Hne & H1 & H2 & E) Hnd.
    apply Hne, (Hnd i j (Name n1)).
    + by rewrite list_lookup_fmap, H1.
    + by rewrite list_lookup_fmap, H2, E.
  - apply not_NoDup_fmap_lookup.
Qed.

(** C6: [setup_master_tree] raises the [ValueError] of non-unique names if
    and only if, after the labels were given, two nodes of the master tree,
    leaves or internal nodes, have the same label; it raises nothing else;
    and when it raises, [bootstrap_support] ends with that error and the
    master tree as [setup_master_tree] left it, whatever the comparison
    trees are: none of them is compared. *)
Theorem C6_nonunique_names_raise (m : PhyloNode) (ts : list PhyloNode) :
  ((setup_master_tree m).2 = Raise (ValueError nonunique_msg)
   ↔ shares_label (setup_master_tree m).1)
  ∧ ((setup_master_tree m).2 = Ok ()
     ∨ (setup_master_tree m).2 = Raise (ValueError nonunique_msg))
  ∧ ((setup_master_tree m).2 = Raise (ValueError nonunique_msg) →
     bootstrap_support m ts
     = ((setup_master_tree m).1, Raise (ValueError nonunique_msg))).
Proof.
  rewrite setup_master_tree_fst, shares_label_not_NoDup, <- size_pyset_NoDup.
  rewrite setup_master_tree_snd. split_and!.
  - case_bool_decide; split; done.
  - case_bool_decide; auto.
  - intros H. apply bootstrap_support_setup_raises.
    by rewrite setup_master_tree_snd.
Qed.

(** ** The accumulators while trees are compared *)

Lemma compare_one_vote m t :
  clade t = clade m → Forall int_acc (views m) →
  Forall2 (one_vote t) (iterNontips m) (iterNontips (compare m t).1).
Proof.
  intros Hc Hacc.
  destruct (compare_ok m t Hc (int_acc_has_acc _ Hacc)) as (_ & Hv & _).
  apply (Forall2_fmap_1 view_of view_of
           (λ v v', ∃ k, v.1.2 = Some (PyInt k)
                         ∧ v'.1.2 = Some (PyInt (if supports (nodes_names t) v.2
                                                 then k + 1 else k))
                         ∧ v'.1.1 = v.1.1)).
  fold (views m) (views (compare m t).1). rewrite Hv.
  apply Forall2_fmap_r, Forall_Forall2_diag.
  eapply Forall_impl; [exact Hacc|].
  intros [[nm bs] tn] [k Hk]; simpl in *. subst. exists k.
  unfold bump; simpl. by destruct (supports (nodes_names t) tn).
Qed.

(** C9: after [setup_master_tree] every internal node of the master tree
    has the accumulator 0; while the comparison trees [ts], which all have
    the leaf set of the master tree, are processed, each comparison leaves
    every accumulator an [int] that is what it was or one more (one more
    exactly when the tree has the clade of the node), never less; and after
    all of [ts] every accumulator is an [int] between 0 and the number of
    trees. *)
Theorem C9_accumulator_between_zero_and_count
    (m : PhyloNode) (ts : list PhyloNode) :
  Forall (λ t, clade t = clade m) ts →
  Forall (λ n, bootstrap_support_attr n = Some (PyInt 0))
    (iterNontips (setup_master_tree m).1)
  ∧ (∀ pre t post, ts = pre ++ t :: post →
       (compare_all (setup_master_tree m).1 pre).2 = Ok ()
       ∧ (compare (compare_all (setup_master_tree m).1 pre).1 t).2 = Ok ()
       ∧ Forall2 (one_vote t)
           (iterNontips (compare_all (setup_master_tree m).1 pre).1)
           (iterNontips
              (compare (compare_all (setup_master_tree m).1 pre).1 t).1))
  ∧ (compare_all (setup_master_tree m).1 ts).2 = Ok ()
  ∧ Forall (λ n, ∃ k, bootstrap_support_attr n = Some (PyInt k)
                      ∧ 0 ≤ k ≤ Z.of_nat (length ts))
      (iterNontips (compare_all (setup_master_tree m).1 ts).1).
Proof.
  intros Hts. rewrite setup_master_tree_fst. split_and!.
  - apply (Forall_views (λ v, v.1.2 = Some (PyInt 0))).
    rewrite views_named. apply setup_views_acc.
  - intros pre t post ->.
    apply Forall_app in Hts as [Hpre Hpost].
    apply Forall_cons in Hpost as [Ht _].
    destruct (compare_all_named m pre Hpre) as (Hok & Hv & Htips).
    assert (Hc : clade t = clade (compare_all (named m) pre).1)
      by (unfold clade at 2, getTipNames; by rewrite Htips).
    assert (Hacc : Forall int_acc (views (compare_all (named m) pre).1))
      by (rewrite Hv; apply counted_int_acc).
    split_and!; [done| |by apply compare_one_vote].
    by destruct (compare_ok _ t Hc (int_acc_has_acc _ Hacc)).
  - by destruct (compare_all_named m ts Hts).
  - destruct (compare_all_named m ts Hts) as (_ & Hv & _).
    apply (Forall_views (λ v, ∃ k, v.1.2 = Some (PyInt k)
                                   ∧ 0 ≤ k ≤ Z.of_nat (length ts))).
    rewrite Hv. apply Forall_forall. intros v Hin.
    exists (votes ts v.2). split; [by apply (counted_acc m)|apply votes_bounds].
Qed.

Lemma C9_accumulator_witness :
  Forall (λ n, bootstrap_support_attr n = Some (PyInt 0))
    (iterNontips (setup_master_tree master_ABCD).1)
  ∧ (∀ pre t post, [tree_AB_CD; tree_AC_BD] = pre ++ t :: post →
       (compare_all (setup_master_tree master_ABCD).1 pre).2 = Ok ()
       ∧ (compare (compare_all (setup_master_tree master_ABCD).1 pre).1 t).2
         = Ok ()
       ∧ Forall2 (one_vote t)
           (iterNontips (compare_all (setup_master_tree master_ABCD).1 pre).1)
           (iterNontips
              (compare
                 (compare_all (setup_master_tree master_ABCD).1 pre).1 t).1))
  ∧ (compare_all (setup_master_tree master_ABCD).1
       [tree_AB_CD; tree_AC_BD]).2 = Ok ()
  ∧ Forall (λ n, ∃ k, bootstrap_support_attr n = Some (PyInt k)
                      ∧ 0 ≤ k ≤ Z.of_nat (length [tree_AB_CD; tree_AC_BD]))
      (iterNontips
         (compare_all (setup_master_tree master_ABCD).1
            [tree_AB_CD; tree_AC_BD]).1).
Proof.
  apply (C9_accumulator_between_zero_and_count
           master_ABCD [tree_AB_CD; tree_AC_BD]).
  repeat constructor; vm_compute; reflexivity.
Defined.

(** ** The shape of the master tree is never changed *)

Lemma skeleton_tip nm bs : skeleton (mkNode nm bs []) = mkNode nm bs [].
Proof. done. Qed.

Lemma skeleton_inner nm bs c cs :
  skeleton (mkNode nm bs (c :: cs)) = mkNode None None (map skeleton (c :: cs)).
Proof. done. Qed.

Lemma skeleton_is_tip t : is_tip (skeleton t) = is_tip t.
Proof. by destruct t as [nm bs [|c cs]]. Qed.

Section SkeletonLoop.
Context {S : Type}.
Variable body : PhyloNode → S → result (option string * option pynum * S).

Lemma thread_skeleton cs :
  Forall (λ c, ∀ st, skeleton (for_nontips body c st).1 = skeleton c) cs →
  ∀ st, map skeleton (thread (for_nontips body) cs st).1 = map skeleton cs.
Proof.
  induction 1 as [|c cs Hc _ IH]; intros st; simpl; [done|].
  specialize (Hc st). destruct (for_nontips body c st) as [c' st1].
  specialize (IH st1).
  destruct (thread (for_nontips body) cs st1) as [cs' st2].
  simpl in *. by rewrite Hc, IH.
Qed.

Lemma for_nontips_skeleton t : ∀ st,
  skeleton (for_nontips body t st).1 = skeleton t.
Proof.
  induction t as [nm bs cs IH] using PhyloNode_ind. intros st.
  destruct st as [s|e]; [|by destruct cs].
  destruct cs as [|c cs]; [done|].
  cbn [for_nontips]. destruct (body _ s) as [[[nm' bs'] s']|e]; [|done].
  pose proof (thread_skeleton _ IH (Ok s')) as Hm.
  destruct (thread (for_nontips body) (c :: cs) (Ok s')) as [cs' st'].
  simpl in Hm. destruct cs' as [|c' cs']; [done|].
  rewrite !skeleton_inner. cbn [fst]. by rewrite skeleton_inner, Hm.
Qed.
End SkeletonLoop.

Lemma length_views_skeleton t : length (views (skeleton t)) = length (views t).
Proof.
  induction t as [nm bs cs IH] using PhyloNode_ind.
  destruct cs as [|c cs]; [done|].
  rewrite skeleton_inner.
  assert (Hl : length (flat_map views (map skeleton (c :: cs)))
               = length (flat_map views (c :: cs))).
  { revert IH. generalize (c :: cs) as l. clear.
    induction l as [|x l IHl]; intros IH; [done|].
    apply Forall_cons in IH as [Hx Hl]. simpl.
    by rewrite !length_app, Hx, IHl. }
  cbn [map] in *. rewrite !views_inner. cbn [length]. by rewrite Hl.
Qed.

Lemma skeleton_length_views t1 t2 :
  skeleton t1 = skeleton t2 → length (views t1) = length (views t2).
Proof.
  intros H. by rewrite <- (length_views_skeleton t1), H, length_views_skeleton.
Qed.

(** A tree is its shape and the views of its internal nodes. *)
Lemma skeleton_views_inj t1 : ∀ t2,
  skeleton t1 = skeleton t2 → views t1 = views t2 → t1 = t2.
Proof.
  induction t1 as [nm1 bs1 cs1 IH] using PhyloNode_ind.
  intros [nm2 bs2 cs2] Hs Hv.
  destruct cs1 as [|c1 cs1], cs2 as [|c2 cs2]; try done.
  rewrite !skeleton_inner in Hs. apply (f_equal Children) in Hs.
  change (map skeleton (c1 :: cs1) = map skeleton (c2 :: cs2)) in Hs.
  rewrite !views_inner in Hv. injection Hv as -> -> _ Hv.
  change (flat_map views (c1 :: cs1) = flat_map views (c2 :: cs2)) in Hv.
  f_equal. revert Hs Hv IH.
  generalize (c1 :: cs1) as l1, (c2 :: cs2) as l2. clear.
  induction l1 as [|x l1 IHl]; intros [|y l2] Hs Hv IH; try done.
  simpl in Hs, Hv. injection Hs as Hx Hs.
  apply Forall_cons in IH as [IHx IH].
  destruct (app_inj_1 _ _ _ _ (skeleton_length_views _ _ Hx) Hv) as [Hvx Hv'].
  f_equal; [by apply IHx | by apply IHl].
Qed.

(** ** What the loops keep: labels and leaves *)

Lemma tips_skeleton t : tips (skeleton t) = tips t.
Proof.
  induction t as [nm bs cs IH] using PhyloNode_ind.
  destruct cs as [|c cs]; [done|].
  rewrite skeleton_inner.
  assert (Hl : flat_map tips (map skeleton (c :: cs)) = flat_map tips (c :: cs)).
  { revert IH. generalize (c :: cs) as l. clear.
    induction l as [|x l IHl]; intros IH; [done|].
    apply Forall_cons in IH as [Hx Hl]. simpl. by rewrite Hx, IHl. }
  exact Hl.
Qed.

Lemma skeleton_tips t1 t2 : skeleton t1 = skeleton t2 → tips t1 = tips t2.
Proof. intros H. by rewrite <- (tips_skeleton t1), H, tips_skeleton. Qed.

Section VLoopKeeps.
Context {S : Type}.
Variable vbody : view → S → result (option string * option pynum * S).

Lemma vloop_tipnames vs st :
  snd <$> (vloop vbody vs st).1 = snd <$> vs.
Proof.
  revert st. induction vs as [|v vs IH]; intros st; [done|].
  cbn [vloop]. destruct st as [s|e]; [|done].
  destruct (vbody v s) as [[[nm bs] s']|e]; [|done].
  specialize (IH (Ok s')). destruct (vloop vbody vs (Ok s')) as [l st'].
  cbn [fst] in *. rewrite !fmap_cons. by rewrite IH.
Qed.

Hypothesis vbody_label :
  ∀ v s nm bs s', vbody v s = Ok (nm, bs, s') → nm = v.1.1.

Lemma vloop_labels vs st :
  label <$> (vloop vbody vs st).1 = label <$> vs.
Proof.
  revert st. induction vs as [|v vs IH]; intros st; [done|].
  cbn [vloop]. destruct st as [s|e]; [|done].
  destruct (vbody v s) as [[[nm bs] s']|e] eqn:Eb; [|done].
  apply vbody_label in Eb as ->.
  specialize (IH (Ok s')). destruct (vloop vbody vs (Ok s')) as [l st'].
  cbn [fst] in *. rewrite !fmap_cons. by rewrite IH.
Qed.
End VLoopKeeps.

Lemma compare_vbody_label names v s nm bs s' :
  compare_vbody names v s = Ok (nm, bs, s') → nm = v.1.1.
Proof.
  unfold compare_vbody.
  destruct (supports names v.2); [destruct v.1.2|]; intros H; by simplify_eq.
Qed.

Lemma aggregate_vbody_label n v s nm bs s' :
  aggregate_vbody n v s = Ok (nm, bs, s') → nm = v.1.1.
Proof.
  unfold aggregate_vbody. destruct v.1.2 as [x|]; [|done].
  destruct (py_truediv x n); intros H; by simplify_eq.
Qed.

Lemma framed_named m : framed m (named m).
Proof.
  split_and!.
  - apply for_nontips_skeleton.
  - done.
  - rewrite views_named. apply setup_views_tipnames.
Qed.

Lemma framed_compare m t u : framed m t → framed m (compare t u).1.
Proof.
  intros (Hs & Hl & Ht).
  destruct (decide (clade u = clade t)) as [Hc|Hc];
    [rewrite compare_match by done | by rewrite compare_mismatch].
  destruct (for_nontips_views _ _ (compare_body_view (nodes_names u)) t (Ok ()))
    as (Hv & _ & _).
  split_and!.
  - by rewrite for_nontips_skeleton.
  - rewrite Hv, vloop_labels; [done|apply compare_vbody_label].
  - by rewrite Hv, vloop_tipnames.
Qed.

Lemma framed_compare_all m ts : ∀ t,
  framed m t → framed m (compare_all t ts).1.
Proof.
  induction ts as [|u ts IH]; intros t Hf; [done|].
  cbn [compare_all]. pose proof (framed_compare m t u Hf) as Hc.
  destruct (compare t u) as [t' [[]|e]]; [by apply IH|done].
Qed.

Lemma framed_aggregate m n t st :
  framed m t → framed m (for_nontips (aggregate_body n) t st).1.
Proof.
  intros (Hs & Hl & Ht).
  destruct (for_nontips_views _ _ (aggregate_body_view n) t st) as (Hv & _ & _).
  split_and!.
  - by rewrite for_nontips_skeleton.
  - rewrite Hv, vloop_labels; [done|apply aggregate_vbody_label].
  - by rewrite Hv, vloop_tipnames.
Qed.

Lemma framed_bootstrap_support m ts : framed m (bootstrap_support m ts).1.
Proof.
  unfold bootstrap_support.
  pose proof (setup_master_tree_fst m) as Hf.
  destruct (setup_master_tree m) as [m1 [[]|e']]; simpl in Hf; subst;
    [|apply framed_named].
  pose proof (framed_compare_all m ts _ (framed_named m)) as Hc.
  destruct (compare_all (named m) ts) as [m2 [[]|e]]; [|done].
  by apply framed_aggregate.
Qed.

(** ** setup_master_tree starts every run afresh *)

Lemma unnamed_generated (i : nat) :
  unnamed (Some ("node" +:+ pretty i)) = false.
Proof.
  unfold unnamed. rewrite !bool_decide_eq_false_2; [done|done|done].
Qed.

Lemma assign_names_named i l :
  Forall (λ nm, unnamed nm = false) (assign_names i l).
Proof.
  revert i. induction l as [|nm l IH]; intros i; simpl; [constructor|].
  destruct (unnamed nm) eqn:E; constructor; auto using unnamed_generated.
Qed.

Lemma assign_names_id i l :
  Forall (λ nm, unnamed nm = false) l → assign_names i l = l.
Proof.
  intros H. revert i. induction H as [|nm l Hnm _ IH]; intros i; simpl; [done|].
  by rewrite Hnm, IH.
Qed.

Lemma views_eq (l1 : list view) : ∀ l2 : list view,
  label <$> l1 = label <$> l2 →
  (λ v : view, v.1.2) <$> l1 = (λ v : view, v.1.2) <$> l2 →
  snd <$> l1 = snd <$> l2 →
  l1 = l2.
Proof.
  induction l1 as [|[[nm1 bs1] tn1] l1 IH]; intros [|[[nm2 bs2] tn2] l2];
    try done.
  rewrite !fmap_cons. unfold label at 1 3. simpl.
  intros [= -> Hl] [= -> Ha] [= -> Ht]. f_equal. by apply IH.
Qed.

Lemma labels_named m :
  label <$> views (named m) = assign_names 0 (label <$> views m).
Proof. rewrite views_named. apply setup_views_names. Qed.

Lemma setup_views_accs i vs :
  (λ v : view, v.1.2) <$> setup_views i vs
  = (λ _, Some (PyInt 0)) <$> vs.
Proof.
  revert i. induction vs as [|v vs IH]; intros i; simpl; [done|].
  by rewrite IH.
Qed.

Lemma named_framed m t : framed m t → named t = named m.
Proof.
  intros (Hs & Hl & Ht). apply skeleton_views_inj.
  - unfold named. by rewrite !for_nontips_skeleton.
  - rewrite !views_named. apply views_eq.
    + change (λ v : view, v.1.1) with label in *.
      rewrite !(setup_views_names 0). change (λ v : view, v.1.1) with label.
      rewrite Hl, labels_named. apply assign_names_id, assign_names_named.
    + rewrite !setup_views_accs.
      apply (f_equal (fmap (λ _, Some (PyInt 0)))) in Ht.
      by rewrite <- !list_fmap_compose in Ht.
    + by rewrite !setup_views_tipnames.
Qed.

Lemma setup_master_tree_framed m t :
  framed m t → setup_master_tree t = setup_master_tree m.
Proof.
  intros Hf.
  rewrite (surjective_pairing (setup_master_tree t)),
    (surjective_pairing (setup_master_tree m)).
  by rewrite !setup_master_tree_fst, !setup_master_tree_snd, (named_framed m t).
Qed.

Lemma bootstrap_support_framed m t ts :
  framed m t → bootstrap_support t ts = bootstrap_support m ts.
Proof.
  intros Hf. unfold bootstrap_support. by rewrite (setup_master_tree_framed m t).
Qed.

(** X1: [setup_master_tree] run on the tree it has left behind leaves the
    same tree behind and ends the same way, with the same error if it
    raised one: the labels it gave are not given again and the counter
    hands out nothing. *)
Theorem setup_master_tree_twice (m : PhyloNode) :
  setup_master_tree (setup_master_tree m).1 = setup_master_tree m.
Proof.
  rewrite setup_master_tree_fst.
  apply setup_master_tree_framed, framed_named.
Qed.

(** X2: whatever a run of [bootstrap_support] has left on the master tree
    (fractions, or the counts of a run that was ended by an error), a later
    run on that tree, with any comparison trees, gives what it gives on the
    master tree as it first was: the accumulators of an earlier run are
    never read. *)
Theorem bootstrap_support_again (m : PhyloNode) (ts ts' : list PhyloNode) :
  bootstrap_support (bootstrap_support m ts).1 ts' = bootstrap_support m ts'.
Proof. apply bootstrap_support_framed, framed_bootstrap_support. Qed.

(** X3: whether [bootstrap_support] returns or raises, the master tree it
    leaves behind has the shape it had (the same nodes, children in the
    same order), the same leaves with their labels, and on its internal
    nodes the labels that [setup_master_tree] gives: it never adds, drops,
    moves or relabels a leaf, and never relabels a named internal node. *)
Theorem bootstrap_support_keeps_shape (m : PhyloNode) (ts : list PhyloNode) :
  skeleton (bootstrap_support m ts).1 = skeleton m
  ∧ tips (bootstrap_support m ts).1 = tips m
  ∧ Name <$> iterNontips (bootstrap_support m ts).1
    = assign_names 0 (Name <$> iterNontips m)
  ∧ getTipNames <$> iterNontips (bootstrap_support m ts).1
    = getTipNames <$> iterNontips m.
Proof.
  destruct (framed_bootstrap_support m ts) as (Hs & Hl & Ht).
  split_and!.
  - done.
  - by apply skeleton_tips.
  - by rewrite <- !labels_views, Hl, labels_named.
  - unfold views in Ht. by rewrite <- !list_fmap_compose in Ht.
Qed.

(** ** How a run of bootstrap_support ends *)

Lemma compare_all_outcome ts : ∀ m,
  Forall int_acc (views m) →
  (compare_all m ts).2
  = if bool_decide (Forall (λ t, clade t = clade m) ts)
    then Ok () else Raise (ValueError mismatch_msg).
Proof.
  induction ts as [|t ts IH]; intros m Hacc.
  - by rewrite bool_decide_eq_true_2 by constructor.
  - cbn [compare_all].
    destruct (decide (clade t = clade m)) as [Ht|Ht].
    + destruct (compare_ok m t Ht (int_acc_has_acc _ Hacc)) as (Hs & Hv & Htips).
      destruct (compare m t) as [m' [[]|e]]; simpl in Hs, Hv, Htips; [|done].
      assert (Hc : clade m' = clade m)
        by (unfold clade, getTipNames; by rewrite Htips).
      rewrite IH by (rewrite Hv; by apply bump_int_acc). rewrite Hc.
      repeat case_bool_decide; try done; exfalso.
      * match goal with H : ¬ _ |- _ => apply H end. by constructor.
      * match goal with H : ¬ _ |- _ => apply H end.
        match goal with H : Forall _ (_ :: _) |- _ =>
          by apply Forall_cons in H as [_ ?] end.
    + rewrite compare_mismatch by done.
      rewrite bool_decide_eq_false_2; [done|].
      by intros [? _]%Forall_cons.
Qed.

Lemma bootstrap_support_no_trees m :
  (setup_master_tree m).2 = Ok () →
  bootstrap_support m []
  = (named m, if is_tip m then Ok ∅ else Raise ZeroDivisionError).
Proof.
  intros Hs. rewrite bootstrap_support_compared by done.
  cbn [compare_all fst length]. change (Z.of_nat 0) with 0.
  pose proof (views_named_int_acc m) as Hacc.
  rewrite <- (is_tip_named m).
  destruct (named m) as [nm bs [|c cs]]; [done|].
  rewrite views_inner in Hacc. apply Forall_cons in Hacc as [[k Hk] _].
  simpl in Hk. subst bs. done.
Qed.

Lemma bootstrap_support_outcome m ts :
  (bootstrap_support m ts).2
  = match (setup_master_tree m).2 with
    | Raise e => Raise e
    | Ok _ =>
        if bool_decide (Forall (λ t, clade t = clade m) ts)
        then
          match ts with
          | [] => if is_tip m then Ok ∅ else Raise ZeroDivisionError
          | _ :: _ =>
              Ok (foldl (record (Z.of_nat (length ts))) ∅ (counted m ts))
          end
        else Raise (ValueError mismatch_msg)
    end.
Proof.
  destruct (setup_master_tree m).2 as [[]|e] eqn:Hs;
    [|by rewrite (bootstrap_support_setup_raises _ _ _ Hs)].
  case_bool_decide as Hts.
  - destruct ts as [|t ts].
    + by rewrite (bootstrap_support_no_trees m Hs).
    + by destruct (bootstrap_support_ok m (t :: ts) Hs ltac:(done) Hts) as [-> _].
  - unfold bootstrap_support.
    pose proof (setup_master_tree_fst m) as Hf.
    destruct (setup_master_tree m) as [m1 [[]|e']]; simpl in *; [subst|done].
    pose proof (compare_all_outcome ts (named m) (views_named_int_acc m)) as Ho.
    rewrite bool_decide_eq_false_2 in Ho
      by (intros H; apply Hts; eapply Forall_impl; [exact H|];
          intros u Hu; simpl in Hu; by rewrite <- (clade_named m)).
    destruct (compare_all (named m) ts) as [m2 [[]|e]]; simpl in Ho; [done|].
    by injection Ho as ->.
Qed.

Lemma nonunique_msg_mismatch_msg : nonunique_msg ≠ mismatch_msg.
Proof. vm_compute. discriminate. Qed.

Lemma setup_master_tree_outcome m :
  (setup_master_tree m).2 = Ok ()
  ∨ (setup_master_tree m).2 = Raise (ValueError nonunique_msg).
Proof. rewrite setup_master_tree_snd. case_bool_decide; auto. Qed.

(** X4: how a run of [bootstrap_support] ends.  It returns a mapping
    exactly when [setup_master_tree] succeeds, every comparison tree has the
    leaf set of the master tree, and there is a comparison tree or the
    master tree is a bare leaf.  It raises the error of non-unique names
    exactly when [setup_master_tree] does, the error of a leaf-set mismatch
    exactly when [setup_master_tree] succeeds and some comparison tree has
    other leaves, [ZeroDivisionError] exactly when [setup_master_tree]
    succeeds, there is no comparison tree and the master tree has an
    internal node; and it never raises [AttributeError]. *)
Theorem bootstrap_support_ends (m : PhyloNode) (ts : list PhyloNode) :
  ((∃ d, (bootstrap_support m ts).2 = Ok d)
   ↔ (setup_master_tree m).2 = Ok ()
     ∧ Forall (λ t, clade t = clade m) ts
     ∧ (ts ≠ [] ∨ is_tip m = true))
  ∧ ((bootstrap_support m ts).2 = Raise (ValueError nonunique_msg)
     ↔ (setup_master_tree m).2 = Raise (ValueError nonunique_msg))
  ∧ ((bootstrap_support m ts).2 = Raise (ValueError mismatch_msg)
     ↔ (setup_master_tree m).2 = Ok ()
       ∧ ¬ Forall (λ t, clade t = clade m) ts)
  ∧ ((bootstrap_support m ts).2 = Raise ZeroDivisionError
     ↔ (setup_master_tree m).2 = Ok () ∧ ts = [] ∧ is_tip m = false)
  ∧ (∀ a, (bootstrap_support m ts).2 ≠ Raise (AttributeError a)).
Proof.
  pose proof nonunique_msg_mismatch_msg as Hne.
  rewrite bootstrap_support_outcome.
  destruct (setup_master_tree_outcome m) as [-> | ->];
    [case_bool_decide as Hts;
     [destruct ts as [|t ts]; [destruct (is_tip m)|]|]|];
    split_and!; try (intros a; discriminate);
    (split; [intros H|intros H]); try done;
    try (destruct H as [d H]; discriminate);
    try (injection H as H; by destruct Hne);
    try (by destruct H as (_ & _ & [?|?]));
    try (by destruct H as (? & ? & ?));
    try (by destruct H as [? ?]);
    try (split_and!; by eauto);
    try (by eexists).
  destruct H as (_ & -> & _). by destruct Hts.
Qed.

(** ** The support of one node *)

Lemma supports_iff t tn :
  supports (nodes_names t) tn = true
  ↔ ∃ u, u ∈ iterNontips t ∧ clade u = pyset tn.
Proof.
  unfold supports, nodes_names, clade. rewrite bool_decide_eq_true.
  rewrite <- list_fmap_compose, list_elem_of_fmap.
  split; intros (u & H1 & H2); exists u.
  - split; [done | by symmetry].
  - split; [by symmetry | done].
Qed.

Lemma setup_views_lookup (vs : list view) : ∀ i j v,
  vs !! j = Some v →
  ∃ v', setup_views i vs !! j = Some v'
        ∧ v'.1.2 = Some (PyInt 0) ∧ v'.2 = v.2.
Proof.
  induction vs as [|v0 vs IH]; intros i j v Hj; [done|].
  destruct j as [|j]; simpl in *.
  - injection Hj as ->. by eexists.
  - by apply IH.
Qed.

Lemma bootstrap_support_node m ts j n :
  (setup_master_tree m).2 = Ok () → ts ≠ [] →
  Forall (λ t, clade t = clade m) ts →
  iterNontips m !! j = Some n →
  ∃ n' d,
    (bootstrap_support m ts).2 = Ok d
    ∧ iterNontips (bootstrap_support m ts).1 !! j = Some n'
    ∧ getTipNames n' = getTipNames n
    ∧ bootstrap_support_attr n'
      = Some (quotient (Z.of_nat (length ts))
                (PyInt (votes ts (getTipNames n))))
    ∧ d !! Name n' = bootstrap_support_attr n'.
Proof.
  intros Hs Hne Hts Hj.
  destruct (bootstrap_support_ok m ts Hs Hne Hts) as (Hd & Hv & _).
  assert (Hvj : views m !! j = Some (view_of n))
    by (unfold views; by rewrite list_lookup_fmap, Hj).
  destruct (setup_views_lookup _ 0 _ _ Hvj) as (v' & Hv' & Hacc & Htn).
  assert (Hc : counted m ts !! j = Some (add_votes ts v'))
    by (unfold counted; rewrite views_named;
        apply list_lookup_fmap_Some; by exists v').
  assert (Hin : add_votes ts v' ∈ counted m ts)
    by (by eapply list_elem_of_lookup_2).
  pose proof (counted_acc _ _ _ Hin) as Hca.
  assert (Hr : views (bootstrap_support m ts).1 !! j
               = (normalize (Z.of_nat (length ts)) <$> counted m ts) !! j)
    by (by rewrite Hv).
  rewrite (proj2 (list_lookup_fmap_Some _ _ _ _)
             (ex_intro _ _ (conj eq_refl Hc))) in Hr.
  apply list_lookup_fmap_Some in Hr as (n' & Hr & Hj'). symmetry in Hr.
  assert (Hb : bootstrap_support_attr n'
               = Some (quotient (Z.of_nat (length ts))
                         (PyInt (votes ts (getTipNames n))))).
  { change (bootstrap_support_attr n') with (view_of n').1.2. rewrite Hr.
    unfold normalize. cbn [fst snd]. rewrite Hca.
    change (add_votes ts v').2 with v'.2. by rewrite Htn. }
  eexists n', _. split_and!; [exact Hd|done| |done|].
  - change (getTipNames n') with (view_of n').2. rewrite Hr.
    change (normalize (Z.of_nat (length ts)) (add_votes ts v')).2 with v'.2.
    by rewrite Htn.
  - rewrite Hb. change (Name n') with (view_of n').1.1. rewrite Hr.
    change (normalize (Z.of_nat (length ts)) (add_votes ts v')).1.1
      with (add_votes ts v').1.1.
    replace (getTipNames n) with (add_votes ts v').2
      by (change (add_votes ts v').2 with v'.2; by rewrite Htn).
    apply lookup_foldl_record_in; [|done|done].
    rewrite labels_counted. by apply NoDup_labels, setup_ok_NoDup.
Qed.



Lemma quotient_inj n k k' :
  0 < n → quotient n (PyInt k) = quotient n (PyInt k') → k = k'.
Proof.
  intros Hn [= H].
  assert (E : (inject_Z k / inject_Z n == inject_Z k' / inject_Z n)%Q).
  { rewrite <- (Qred_correct (inject_Z k / inject_Z n)), H.
    apply Qred_correct. }
  destruct n as [|p|p]; try lia.
  unfold Qeq, Qdiv, Qmult, Qinv, inject_Z in E. simpl in E.
  rewrite !Z.mul_1_r in E. by apply Z.mul_reg_r in E.
Qed.

Lemma quotient_zero n : 0 < n → quotient n (PyInt 0) = PyFloat 0.
Proof.
  intros Hn. unfold quotient; simpl. done.
Qed.

Lemma length_filter_all {A} (P : A → Prop) `{∀ x, Decision (P x)} (l : list A) :
  length (filter P l) = length l ↔ Forall P l.
Proof.
  induction l as [|x l IH]; [by split; [constructor|]|].
  pose proof (length_filter P l) as Hle.
  rewrite filter_cons, Forall_cons. destruct (decide (P x)) as [Hx|Hx]; simpl.
  - rewrite <- IH. split; [intros [= ?]; by split | intros [_ ->]; done].
  - split; [lia | by intros [? _]].
Qed.

Lemma length_filter_none {A} (P : A → Prop) `{∀ x, Decision (P x)} (l : list A) :
  length (filter P l) = 0%nat ↔ Forall (λ x, ¬ P x) l.
Proof.
  induction l as [|x l IH]; [by split; [constructor|]|].
  rewrite filter_cons, Forall_cons. destruct (decide (P x)) as [Hx|Hx]; simpl.
  - split; [done | by intros [? _]].
  - rewrite IH. split; [by split | by intros [_ ?]].
Qed.

Lemma votes_all_iff ts tn :
  votes ts tn = Z.of_nat (length ts)
  ↔ Forall (λ t, supports (nodes_names t) tn = true) ts.
Proof.
  unfold votes. rewrite <- length_filter_all. split; [apply Nat2Z.inj|by intros ->].
Qed.

Lemma votes_none_iff ts tn :
  votes ts tn = 0 ↔ Forall (λ t, supports (nodes_names t) tn ≠ true) ts.
Proof.
  unfold votes. rewrite <- length_filter_none. split; [|by intros ->].
  intros H. apply Nat2Z.inj. by rewrite H.
Qed.

(** X6: under the conditions of a run that returns, the support of an
    internal node is 1.0 exactly when every comparison tree has an internal
    node with its clade, and 0.0 exactly when no comparison tree has. *)
Theorem support_one_and_zero
    (m : PhyloNode) (ts : list PhyloNode) (j : nat) (n : PhyloNode) :
  (setup_master_tree m).2 = Ok () →
  ts ≠ [] →
  Forall (λ t, clade t = clade m) ts →
  iterNontips m !! j = Some n →
  ∃ n',
    iterNontips (bootstrap_support m ts).1 !! j = Some n'
    ∧ (bootstrap_support_attr n' = Some (PyFloat 1)
       ↔ Forall (λ t, ∃ u, u ∈ iterNontips t ∧ clade u = clade n) ts)
    ∧ (bootstrap_support_attr n' = Some (PyFloat 0)
       ↔ Forall (λ t, ¬ ∃ u, u ∈ iterNontips t ∧ clade u = clade n) ts).
Proof.
  intros Hs Hne Hts Hj.
  destruct (bootstrap_support_node m ts j n Hs Hne Hts Hj)
    as (n' & d & _ & Hj' & _ & Hb & _).
  assert (Hn : 0 < Z.of_nat (length ts))
    by (destruct ts; [done|]; simpl length; lia).
  exists n'. split; [done|]. rewrite Hb. split.
  - rewrite <- (quotient_self _ Hn). split.
    + intros H%(inj Some)%(quotient_inj _ _ _ Hn). apply votes_all_iff in H.
      eapply Forall_impl; [exact H|]. intros t Ht. by apply supports_iff.
    + intros H. do 3 f_equal. apply votes_all_iff.
      eapply Forall_impl; [exact H|]. intros t Ht. by apply supports_iff.
  - rewrite <- (quotient_zero _ Hn). split.
    + intros H%(inj Some)%(quotient_inj _ _ _ Hn). apply votes_none_iff in H.
      eapply Forall_impl; [exact H|]. intros t Ht Hu. by apply Ht, supports_iff.
    + intros H. do 3 f_equal. apply votes_none_iff.
      eapply Forall_impl; [exact H|]. intros t Ht Hu. by apply Ht, supports_iff.
Qed.

Lemma support_one_and_zero_witness :
  ∃ n',
    iterNontips (bootstrap_support master_ABCD [tree_AB_CD; tree_AC_BD]).1
      !! 0%nat = Some n'
    ∧ (bootstrap_support_attr n' = Some (PyFloat 1)
       ↔ Forall (λ t, ∃ u, u ∈ iterNontips t ∧ clade u = clade master_ABCD)
           [tree_AB_CD; tree_AC_BD])
    ∧ (bootstrap_support_attr n' = Some (PyFloat 0)
       ↔ Forall (λ t, ¬ ∃ u, u ∈ iterNontips t ∧ clade u = clade master_ABCD)
           [tree_AB_CD; tree_AC_BD]).
Proof.
  apply (support_one_and_zero master_ABCD [tree_AB_CD; tree_AC_BD] 0 master_ABCD).
  - vm_compute. reflexivity.
  - done.
  - repeat constructor; vm_compute; reflexivity.
  - vm_compute. reflexivity.
Defined.

(** ** The order of the comparison trees *)

Lemma votes_Permutation ts ts' tn : ts ≡ₚ ts' → votes ts tn = votes ts' tn.
Proof. intros H. unfold votes. by rewrite H. Qed.

Lemma counted_Permutation m ts ts' : ts ≡ₚ ts' → counted m ts = counted m ts'.
Proof.
  intros H. unfold counted. apply Forall_fmap_ext_1, Forall_forall.
  intros v _. unfold add_votes. by rewrite (votes_Permutation ts ts' _ H).
Qed.

(** X7: the order in which the comparison trees are given does not matter
    when they all have the leaf set of the master tree: the same trees in
    another order give the same mapping and leave the same master tree
    behind. *)
Theorem bootstrap_support_any_order (m : PhyloNode) (ts ts' : list PhyloNode) :
  ts ≡ₚ ts' →
  Forall (λ t, clade t = clade m) ts →
  bootstrap_support m ts = bootstrap_support m ts'.
Proof.
  intros Hp Hts.
  assert (Hts' : Forall (λ t, clade t = clade m) ts') by (by rewrite <- Hp).
  destruct (setup_master_tree m).2 as [[]|e] eqn:Hs;
    [|by rewrite !(bootstrap_support_setup_raises _ _ _ Hs)].
  destruct ts as [|t ts]; [by apply Permutation_nil_l in Hp as ->|].
  assert (Hne' : ts' ≠ []) by (intros ->; by apply Permutation_nil_r in Hp).
  destruct (bootstrap_support_ok m (t :: ts) Hs ltac:(done) Hts) as (Hd & Hv & _).
  destruct (bootstrap_support_ok m ts' Hs Hne' Hts') as (Hd' & Hv' & _).
  rewrite (surjective_pairing (bootstrap_support m (t :: ts))),
    (surjective_pairing (bootstrap_support m ts')).
  rewrite <- (counted_Permutation m _ _ Hp), <- (Permutation_length Hp)
    in Hd', Hv'.
  f_equal; [|by rewrite Hd, Hd'].
  apply skeleton_views_inj; [|by rewrite Hv, Hv'].
  destruct (framed_bootstrap_support m (t :: ts)) as (-> & _).
  by destruct (framed_bootstrap_support m ts') as (-> & _).
Qed.

Lemma bootstrap_support_any_order_witness :
  bootstrap_support master_ABCD [tree_AB_CD; tree_AC_BD]
  = bootstrap_support master_ABCD [tree_AC_BD; tree_AB_CD].
Proof.
  apply (bootstrap_support_any_order master_ABCD
           [tree_AB_CD; tree_AC_BD] [tree_AC_BD; tree_AB_CD]).
  - apply perm_swap.
  - repeat constructor; vm_compute; reflexivity.
Defined.

(** ** The keys of the mapping *)

Lemma flat_map_ext_Forall {A B} (f g : A → list B) (l : list A) :
  Forall (λ x, f x = g x) l → flat_map f l = flat_map g l.
Proof. induction 1 as [|x l Hx _ IH]; simpl; [done|]. by rewrite Hx, IH. Qed.

Lemma tips_filter t : tips t = filter (λ n, is_tip n = true) (preorder t).
Proof.
  induction t as [nm bs cs IH] using PhyloNode_ind.
  destruct cs as [|c cs]; [done|].
  cbn [tips preorder]. rewrite filter_cons_False by done.
  rewrite filter_flat_map. by apply flat_map_ext_Forall.
Qed.

Lemma preorder_split t : iterNontips t ++ tips t ≡ₚ preorder t.
Proof.
  rewrite tips_filter. unfold iterNontips.
  induction (preorder t) as [|x l IH]; [done|].
  rewrite !filter_cons. destruct (is_tip x) eqn:E.
  - rewrite decide_False, decide_True by done.
    by rewrite <- Permutation_middle, IH.
  - rewrite decide_True, decide_False by done. simpl. by rewrite IH.
Qed.

Lemma internal_label_not_leaf_label t k :
  NoDup (getNodeNames t) →
  k ∈ Name <$> iterNontips t → k ∉ getTipNames t.
Proof.
  unfold getNodeNames, getTipNames.
  rewrite <- (preorder_split t), fmap_app, NoDup_app.
  intros (_ & H & _). apply H.
Qed.

Lemma length_setup_views i vs : length (setup_views i vs) = length vs.
Proof.
  revert i. induction vs as [|v vs IH]; intros i; simpl; [done|].
  by rewrite IH.
Qed.

Lemma length_iterNontips_named m :
  length (iterNontips (named m)) = length (iterNontips m).
Proof.
  rewrite <- (length_fmap view_of (iterNontips (named m))),
    <- (length_fmap view_of (iterNontips m)).
  fold (views (named m)) (views m).
  by rewrite views_named, length_setup_views.
Qed.

Lemma framed_length m t :
  framed m t → length (iterNontips t) = length (iterNontips m).
Proof.
  intros (_ & _ & H). apply (f_equal length) in H.
  unfold views in H. by rewrite !length_fmap in H.
Qed.

(** X8: the mapping of a run that returns has exactly one entry for every
    internal node of the master tree; every key is a label that is neither
    missing nor empty, and no key is the label of a leaf. *)
Theorem mapping_has_one_entry_per_internal_node
    (m : PhyloNode) (ts : list PhyloNode) :
  (setup_master_tree m).2 = Ok () →
  ts ≠ [] →
  Forall (λ t, clade t = clade m) ts →
  ∃ d,
    (bootstrap_support m ts).2 = Ok d
    ∧ size d = length (iterNontips m)
    ∧ (∀ n, n ∈ iterNontips (bootstrap_support m ts).1 →
            d !! Name n = bootstrap_support_attr n)
    ∧ (∀ k, k ∈ dom d →
            k ≠ None ∧ k ≠ Some ""%string ∧ k ∉ getTipNames m).
Proof.
  intros Hs Hne Hts.
  destruct (bootstrap_support_ok m ts Hs Hne Hts) as (Hd & Hv & _).
  pose proof (proj1 (setup_ok_NoDup m) Hs) as Hnd.
  assert (Hdom : dom (foldl (record (Z.of_nat (length ts))) ∅ (counted m ts))
                 = list_to_set (Name <$> iterNontips (named m))).
  { rewrite dom_foldl_record by apply int_acc_has_acc, counted_int_acc.
    by rewrite dom_empty_L, (left_id_L ∅ (∪)), labels_counted, labels_views. }
  eexists. split; [exact Hd|]. split_and!.
  - rewrite <- size_dom, Hdom, size_list_to_set.
    + by rewrite length_fmap, length_iterNontips_named.
    + rewrite <- labels_views. by apply NoDup_labels.
  - intros n Hn. apply list_elem_of_lookup in Hn as [j Hj].
    assert (Hlen : (j < length (iterNontips m))%nat).
    { apply lookup_lt_Some in Hj.
      by rewrite (framed_length m _ (framed_bootstrap_support m ts)) in Hj. }
    apply lookup_lt_is_Some in Hlen as [n0 Hn0].
    destruct (bootstrap_support_node m ts j n0 Hs Hne Hts Hn0)
      as (n' & d' & Hd2 & Hj2 & _ & _ & Hl).
    rewrite Hd in Hd2. injection Hd2 as <-. congruence.
  - intros k Hk. rewrite Hdom in Hk. apply elem_of_list_to_set in Hk.
    assert (Hu : unnamed k = false).
    { pose proof (assign_names_named 0 (Name <$> iterNontips m)) as Ha.
      rewrite <- names_named, Forall_forall in Ha. by apply Ha. }
    split_and!.
    + intros ->. done.
    + intros ->. done.
    + pose proof (internal_label_not_leaf_label _ _ Hnd Hk) as Hnl.
      unfold getTipNames in *. by rewrite tips_named in Hnl.
Qed.

Lemma mapping_has_one_entry_witness :
  ∃ d,
    (bootstrap_support master_ABCD [tree_AB_CD; tree_AC_BD]).2 = Ok d
    ∧ size d = length (iterNontips master_ABCD)
    ∧ (∀ n, n ∈ iterNontips
                  (bootstrap_support master_ABCD [tree_AB_CD; tree_AC_BD]).1 →
            d !! Name n = bootstrap_support_attr n)
    ∧ (∀ k, k ∈ dom d →
            k ≠ None ∧ k ≠ Some ""%string ∧ k ∉ getTipNames master_ABCD).
Proof.
  apply (mapping_has_one_entry_per_internal_node
           master_ABCD [tree_AB_CD; tree_AC_BD]).
  - vm_compute. reflexivity.
  - done.
  - repeat constructor; vm_compute; reflexivity.
Defined.

(** ** What compare reads of a comparison tree *)

Section LoopExt.
Context {S : Type}.
Variables body1 body2 :
  PhyloNode → S → result (option string * option pynum * S).
Hypothesis body_ext : ∀ n s, body1 n s = body2 n s.

Lemma thread_ext cs :
  Forall (λ c, ∀ st, for_nontips body1 c st = for_nontips body2 c st) cs →
  ∀ st, thread (for_nontips body1) cs st = thread (for_nontips body2) cs st.
Proof.
  induction 1 as [|c cs Hc _ IH]; intros st; simpl; [done|].
  rewrite Hc. destruct (for_nontips body2 c st) as [c' st1]. by rewrite IH.
Qed.

Lemma for_nontips_ext t : ∀ st,
  for_nontips body1 t st = for_nontips body2 t st.
Proof.
  induction t as [nm bs cs IH] using PhyloNode_ind. intros st.
  destruct st as [s|e]; [|by destruct cs].
  destruct cs as [|c cs]; [done|].
  cbn [for_nontips]. rewrite body_ext.
  destruct (body2 _ s) as [[[nm' bs'] s']|e]; [|done].
  by rewrite (thread_ext _ IH).
Qed.
End LoopExt.

(** X9: [compare] reads of a comparison tree only its leaf set and the set
    of the clades of its internal nodes: two comparison trees with the same
    leaf set and the same clades (children in another order, an internal
    node with a single child more or less) do the same to the master tree
    and end the same way. *)
Theorem compare_reads_only_clades (m t1 t2 : PhyloNode) :
  clade t1 = clade t2 →
  (∀ c, (∃ u, u ∈ iterNontips t1 ∧ clade u = c)
        ↔ (∃ u, u ∈ iterNontips t2 ∧ clade u = c)) →
  compare m t1 = compare m t2.
Proof.
  intros Hl Hc.
  destruct (decide (clade t1 = clade m)) as [H1|H1].
  - rewrite !compare_match by congruence. apply for_nontips_ext.
    intros n s. unfold compare_body.
    fold (supports (nodes_names t1) (getTipNames n)).
    fold (supports (nodes_names t2) (getTipNames n)).
    assert (E : supports (nodes_names t1) (getTipNames n)
                = supports (nodes_names t2) (getTipNames n)).
    { apply eq_true_iff_eq. by rewrite !supports_iff. }
    by rewrite E.
  - rewrite !compare_mismatch by congruence. done.
Qed.

Lemma has_clade_elem t c :
  (∃ u, u ∈ iterNontips t ∧ clade u = c) ↔ c ∈ clade <$> iterNontips t.
Proof.
  rewrite list_elem_of_fmap. split; intros (u & H1 & H2); exists u.
  - split; [by symmetry | done].
  - split; [done | by symmetry].
Qed.

Lemma compare_reads_only_clades_witness :
  compare (setup_master_tree master_ABCD).1 tree_AB_CD
  = compare (setup_master_tree master_ABCD).1 tree_BA_DC.
Proof.
  apply (compare_reads_only_clades
           (setup_master_tree master_ABCD).1 tree_AB_CD tree_BA_DC).
  - vm_compute. reflexivity.
  - intros c. rewrite !has_clade_elem.
    replace (clade <$> iterNontips tree_BA_DC)
      with (clade <$> iterNontips tree_AB_CD) by (vm_compute; reflexivity).
    reflexivity.
Defined.

(** ** compare on a master tree that has no accumulators *)

Lemma vloop_compare_no_acc names (vs : list view) :
  Forall (λ v : view, v.1.2 = None) vs →
  vloop (compare_vbody names) vs (Ok ())
  = (vs, if bool_decide (Exists (λ v : view, supports names v.2 = true) vs)
         then Raise (AttributeError "bootstrap_support") else Ok ()).
Proof.
  induction 1 as [|[[nm bs] tn] vs Hv _ IH]; [done|].
  simpl in Hv. subst bs. cbn [vloop]. unfold compare_vbody at 1. simpl.
  destruct (supports names tn) eqn:E.
  - rewrite bool_decide_eq_true_2; [done|]. by apply Exists_cons_hd.
  - rewrite IH. f_equal.
    assert (Hiff : Exists (λ v : view, supports names v.2 = true) vs
                   ↔ Exists (λ v : view, supports names v.2 = true)
                       ((nm, None, tn) :: vs)).
    { rewrite Exists_cons. simpl. rewrite E.
      split; [by right | by intros [?|?]]. }
    by rewrite (bool_decide_ext _ _ Hiff).
Qed.

(** X10: [compare] on a master tree whose internal nodes have no
    accumulator (it did not go through [setup_master_tree]), against a tree
    with the same leaf set, never changes the master tree; it raises
    [AttributeError] exactly when some internal node of the master tree has
    a clade that the comparison tree has too, in particular whenever
    neither tree is a bare leaf, and returns otherwise. *)
Theorem compare_before_setup (m t : PhyloNode) :
  Forall (λ n, bootstrap_support_attr n = None) (iterNontips m) →
  clade t = clade m →
  (compare m t).1 = m
  ∧ ((compare m t).2 = Raise (AttributeError "bootstrap_support")
     ↔ ∃ n u, n ∈ iterNontips m ∧ u ∈ iterNontips t ∧ clade u = clade n)
  ∧ ((compare m t).2 = Ok ()
     ↔ ¬ ∃ n u, n ∈ iterNontips m ∧ u ∈ iterNontips t ∧ clade u = clade n)
  ∧ (is_tip m = false → is_tip t = false →
     (compare m t).2 = Raise (AttributeError "bootstrap_support")).
Proof.
  intros Hacc Hc. rewrite compare_match by done.
  destruct (for_nontips_views _ _ (compare_body_view (nodes_names t)) m (Ok ()))
    as (Hv & Hs & _).
  rewrite vloop_compare_no_acc in Hv, Hs
    by (by apply (Forall_views (λ v, v.1.2 = None))).
  simpl in Hv, Hs.
  assert (Hex : Exists (λ v : view, supports (nodes_names t) v.2 = true) (views m)
                ↔ ∃ n u, n ∈ iterNontips m ∧ u ∈ iterNontips t
                         ∧ clade u = clade n).
  { unfold views. rewrite Exists_fmap, Exists_exists. split.
    - intros (n & Hn & (u & Hu & E)%supports_iff). by exists n, u.
    - intros (n & u & Hn & Hu & E). exists n. split; [done|].
      apply supports_iff. by exists u. }
  rewrite Hs, <- Hex. split_and!.
  - apply skeleton_views_inj; [apply for_nontips_skeleton|done].
  - case_bool_decide; split; done.
  - case_bool_decide; split; done.
  - intros Hm Ht. rewrite bool_decide_eq_true_2; [done|]. apply Hex.
    exists m, t. destruct m as [nm bs [|c cs]], t as [nm' bs' [|c' cs']];
      try done.
    rewrite !iterNontips_inner. split_and!; [left|left|done].
Qed.

Lemma compare_before_setup_witness :
  (compare master_ABCD tree_AC_BD).1 = master_ABCD
  ∧ ((compare master_ABCD tree_AC_BD).2
     = Raise (AttributeError "bootstrap_support")
     ↔ ∃ n u, n ∈ iterNontips master_ABCD ∧ u ∈ iterNontips tree_AC_BD
              ∧ clade u = clade n)
  ∧ ((compare master_ABCD tree_AC_BD).2 = Ok ()
     ↔ ¬ ∃ n u, n ∈ iterNontips master_ABCD ∧ u ∈ iterNontips tree_AC_BD
                ∧ clade u = clade n)
  ∧ (is_tip master_ABCD = false → is_tip tree_AC_BD = false →
     (compare master_ABCD tree_AC_BD).2
     = Raise (AttributeError "bootstrap_support")).
Proof.
  apply (compare_before_setup master_ABCD tree_AC_BD).
  - repeat constructor.
  - vm_compute. reflexivity.
Defined.
